(** * ClawSwarm: the SwarmIRC client and the Discord bridge

    A shallow embedding of [src/public/swarmirc.py] (class [SwarmIRC]) and
    of [src/tools/discord-bridge.py] (class [DiscordSwarmIRCBridge]),
    followed by the properties of the protocol client and of the relay.

    Python [str] values are sequences of Unicode code points; whitespace is
    what [str.strip] and the [\s] class of [re] agree on for [str]
    patterns. Regular expressions are run by a small backtracking matcher
    with greedy quantifiers, so that the patterns of the source are data. *)

From stdpp Require Import base list gmap strings.
From Stdlib Require Import NArith Ascii.

Local Open Scope list_scope.

(** ** Python strings *)

Module Py.

Definition char := N.
Definition str := list char.

(** [s "text"] is the [str] whose code points are the bytes of an ASCII
    literal. *)
Fixpoint s (x : string) : str :=
  match x with
  | EmptyString => []
  | String a x' => N_of_ascii a :: s x'
  end.

Definition NL : char := 10%N.
Definition CR : char := 13%N.
Definition HASH : char := 35%N.
Definition BANG : char := 33%N.
Definition COLON : char := 58%N.
Definition SP : char := 32%N.

(** [ch.isspace()], which is also the [\s] of a [str] pattern. *)
Definition isspace (c : char) : bool :=
  ((9 <=? c) && (c <=? 13) || (28 <=? c) && (c <=? 32)
   || (c =? 133) || (c =? 160) || (c =? 5760)
   || (8192 <=? c) && (c <=? 8202)
   || (c =? 8232) || (c =? 8233) || (c =? 8239) || (c =? 8287)
   || (c =? 12288))%N.

Definition eqb (a b : str) : bool := bool_decide (a = b).

Fixpoint drop_while (p : char -> bool) (x : str) : str :=
  match x with
  | c :: x' => if p c then drop_while p x' else x
  | [] => []
  end.

Fixpoint take_while (p : char -> bool) (x : str) : str :=
  match x with
  | c :: x' => if p c then c :: take_while p x' else []
  | [] => []
  end.

(** [x.strip()] *)
Definition strip (x : str) : str :=
  rev (drop_while isspace (rev (drop_while isspace x))).

(** [x.startswith(p)] *)
Fixpoint startswith (x p : str) {struct p} : bool :=
  match p, x with
  | [], _ => true
  | a :: p', b :: x' => (a =? b)%N && startswith x' p'
  | _ :: _, [] => false
  end.

(** [p in x] for strings: [p] occurs as a substring. *)
Fixpoint contains (p x : str) : bool :=
  startswith x p ||
  match x with
  | [] => false
  | _ :: x' => contains p x'
  end.

(** [x.split(sep)[0]] for a one-character separator. *)
Definition split_first (sep : char) (x : str) : str :=
  take_while (fun c => negb (c =? sep)%N) x.

(** [x[1:]] *)
Definition from1 (x : str) : str := tail x.

End Py.

(** ** Regular expressions

    The fragment of Python's [re] that the client uses: literal
    characters, the classes [\s], [\S] and [.], greedy [+] and [*] over a
    class, sequencing and capture groups. [rx] is a backtracking matcher in
    continuation-passing style: a quantifier first tries the longest run and
    gives characters back one at a time while the rest of the pattern
    fails, which is the order in which [re] explores matches. *)

Module Re.
Import Py.

Inductive cclass :=
| Lit (c : char)
| Space
| NonSpace
| Dot (dotall : bool).

Definition cmatch (k : cclass) (c : char) : bool :=
  match k with
  | Lit a => (a =? c)%N
  | Space => isspace c
  | NonSpace => negb (isspace c)
  | Dot dotall => dotall || negb (c =? NL)%N
  end.

Inductive regex :=
| Eps
| One (k : cclass)
| Plus (k : cclass)
| Star (k : cclass)
| Seq (r1 r2 : regex)
| Group (r : regex).

Fixpoint lits (x : str) : regex :=
  match x with
  | [] => Eps
  | c :: x' => Seq (One (Lit c)) (lits x')
  end.

Section Matcher.
Context {A : Type}.

Fixpoint star (k : cclass) (x : str) (cont : str -> option A) : option A :=
  match x with
  | c :: x' =>
      if cmatch k c
      then match star k x' cont with
           | Some r => Some r
           | None => cont x
           end
      else cont x
  | [] => cont []
  end.

Fixpoint rx (r : regex) (x : str) (caps : list str)
    (cont : str -> list str -> option A) : option A :=
  match r with
  | Eps => cont x caps
  | One k =>
      match x with
      | c :: x' => if cmatch k c then cont x' caps else None
      | [] => None
      end
  | Plus k =>
      match x with
      | c :: x' => if cmatch k c then star k x' (fun t => cont t caps) else None
      | [] => None
      end
  | Star k => star k x (fun t => cont t caps)
  | Seq r1 r2 => rx r1 x caps (fun t caps' => rx r2 t caps' cont)
  | Group r' =>
      rx r' x caps
        (fun t caps' => cont t (caps' ++ [take (length x - length t) x]))
  end.
End Matcher.

(** [re.match(r, x)]: the groups of the first match anchored at the start
    of [x], or [None]. *)
Definition re_match (r : regex) (x : str) : option (list str) :=
  rx r x [] (fun _ caps => Some caps).

(** [re.search(r, x)]: the first position from the left where [r] matches. *)
Fixpoint re_search (r : regex) (x : str) : option (list str) :=
  match re_match r x with
  | Some caps => Some caps
  | None =>
      match x with
      | [] => None
      | _ :: x' => re_search r x'
      end
  end.

(** [m.group(i)] for [i >= 1]. *)
Definition group (caps : list str) (i : nat) : str :=
  nth (i - 1) caps [].

(** The line pattern of [_parse_line]: [^:], a group [\S+], [\s+], a
    group [\S+], [\s+], and a last group of [.] starred, without flags. *)
Definition LINE_RE : regex :=
  Seq (One (Lit COLON))
   (Seq (Group (Plus NonSpace))
    (Seq (Plus Space)
     (Seq (Group (Plus NonSpace))
      (Seq (Plus Space) (Group (Star (Dot false))))))).

(** The parameter pattern of PRIVMSG, QUERY and CMD: [^], a group [\S+],
    [\s+], a colon, and a group of [.] starred, with [re.DOTALL]. *)
Definition PARAMS_RE : regex :=
  Seq (Group (Plus NonSpace))
   (Seq (Plus Space)
    (Seq (One (Lit COLON)) (Group (Star (Dot true))))).

(** The pattern of PART: [^] and a group [\S+]. *)
Definition TOKEN_RE : regex := Group (Plus NonSpace).

(** [r'Welcome to ClawSwarm, (\S+)!'] *)
Definition WELCOME_RE : regex :=
  Seq (lits (s "Welcome to ClawSwarm, "))
   (Seq (Group (Plus NonSpace)) (One (Lit BANG))).

End Re.

(** ** Exceptions and stateful computations

    A computation over a state [S] returns a value or raises, and in both
    cases leaves a state behind: what a Python method did to its object
    before an exception left it stays done. *)

Module Eff.
Import Py.

Inductive exn :=
| ConnectionClosed
| AttributeError
| Exception (what : str).

Inductive result (A : Type) :=
| Ok (a : A)
| Raise (e : exn).
Arguments Ok {A} a.
Arguments Raise {A} e.

Definition M (S A : Type) : Type := S -> result A * S.

Definition ret {S A} (a : A) : M S A := fun st => (Ok a, st).

Definition bind {S A B} (m : M S A) (k : A -> M S B) : M S B :=
  fun st =>
    match m st with
    | (Ok a, st') => k a st'
    | (Raise e, st') => (Raise e, st')
    end.

Definition raise {S A} (e : exn) : M S A := fun st => (Raise e, st).
Definition get {S} : M S S := fun st => (Ok st, st).
Definition modify {S} (f : S -> S) : M S unit := fun st => (Ok tt, f st).

(** [try: m / except: pass] and [try: m / except Exception: ...] where the
    handler only logs: every exception of [exn] is an [Exception]. *)
Definition try_pass {S} (m : M S unit) : M S unit :=
  fun st =>
    match m st with
    | (Ok tt, st') => (Ok tt, st')
    | (Raise _, st') => (Ok tt, st')
    end.

Declare Scope eff_scope.
Delimit Scope eff_scope with eff.
Notation "x <- m ;; k" := (bind m (fun x => k))
  (at level 20, m at level 99, k at level 200, only parsing) : eff_scope.
Notation "m ;; k" := (bind m (fun _ => k))
  (at level 100, k at level 200, only parsing, right associativity) : eff_scope.

End Eff.

(** ** The transport

    A websocket connection as the client sees it: the payloads of the
    peer that the client has not received yet, in order; the payloads
    sent so far; and whether the connection has been closed, by the
    client or by the peer. A send fails with [ConnectionClosed] on a
    closed connection. A receive takes the next payload, also on a closed
    connection, where what the peer sent before the closure is still
    delivered; it fails with [ConnectionClosed] when no payload is left,
    the peer having nothing more to send. *)

Module Transport.
Import Py Eff.

Record WebSocket := {
  inbox : list str;
  outbox : list str;
  closed : bool;
}.

Definition scripted (payloads : list str) : WebSocket :=
  {| inbox := payloads; outbox := []; closed := false |}.

(** [await ws.send(msg)] *)
Definition ws_send (w : WebSocket) (msg : str) : result WebSocket :=
  if closed w then Raise ConnectionClosed
  else Ok {| inbox := inbox w; outbox := outbox w ++ [msg]; closed := false |}.

(** [await ws.recv()] *)
Definition ws_recv (w : WebSocket) : result (str * WebSocket) :=
  match inbox w with
  | msg :: rest =>
      Ok (msg, {| inbox := rest; outbox := outbox w; closed := closed w |})
  | [] => Raise ConnectionClosed
  end.


End Transport.

(** ** class SwarmIRC *)

Module Client.
Import Py Re Eff Transport.
Local Open Scope eff_scope.

(** The keys of [self._handlers]. *)
Inductive kind := message | join_ | part_ | quit | topic | query_ | cmd | raw.

#[global] Instance kind_eq_dec : EqDecision kind.
Proof. solve_decision. Defined.

Section WithWorld.
(** What handlers read and write: the application's own state. The client
    object is not part of it; handlers are taken not to alter the
    registries while a line is being dispatched. *)
Context {W : Type}.

(** A registered callable, applied to its positional arguments: it leaves
    a world behind and either returns ([None]) or raises. *)
Definition handler : Type := list str -> W -> W * option exn.

Record SwarmIRC := {
  url : str;
  api_key : str;
  ws : option WebSocket;
  name : option str;
  authenticated : bool;
  channels : gset str;
  _handlers : kind -> list handler;
  _running : bool;
}.

(** [SwarmIRC.__init__] *)
Definition init (url api_key : str) : SwarmIRC :=
  {| url := url; api_key := api_key; ws := None; name := None;
     authenticated := false; channels := ∅;
     _handlers := fun _ => []; _running := false |}.

Definition set_ws (v : option WebSocket) (c : SwarmIRC) : SwarmIRC :=
  {| url := url c; api_key := api_key c; ws := v; name := name c;
     authenticated := authenticated c; channels := channels c;
     _handlers := _handlers c; _running := _running c |}.

Definition set_name (v : option str) (c : SwarmIRC) : SwarmIRC :=
  {| url := url c; api_key := api_key c; ws := ws c; name := v;
     authenticated := authenticated c; channels := channels c;
     _handlers := _handlers c; _running := _running c |}.

Definition set_authenticated (v : bool) (c : SwarmIRC) : SwarmIRC :=
  {| url := url c; api_key := api_key c; ws := ws c; name := name c;
     authenticated := v; channels := channels c;
     _handlers := _handlers c; _running := _running c |}.

Definition set_channels (v : gset str) (c : SwarmIRC) : SwarmIRC :=
  {| url := url c; api_key := api_key c; ws := ws c; name := name c;
     authenticated := authenticated c; channels := v;
     _handlers := _handlers c; _running := _running c |}.

Definition set_running (v : bool) (c : SwarmIRC) : SwarmIRC :=
  {| url := url c; api_key := api_key c; ws := ws c; name := name c;
     authenticated := authenticated c; channels := channels c;
     _handlers := _handlers c; _running := v |}.

(** [self._handlers[k].append(func)] *)
Definition register (k : kind) (func : handler) (c : SwarmIRC) : SwarmIRC :=
  {| url := url c; api_key := api_key c; ws := ws c; name := name c;
     authenticated := authenticated c; channels := channels c;
     _handlers := fun k' => if decide (k' = k)
                            then _handlers c k' ++ [func]
                            else _handlers c k';
     _running := _running c |}.

Definition on_message := register message.
Definition on_join := register join_.
Definition on_part := register part_.
Definition on_query := register query_.
Definition on_cmd := register cmd.
Definition on_raw := register raw.

(** *** Actions *)

Definition _send (msg : str) : M SwarmIRC unit :=
  fun c =>
    match ws c with
    | Some w =>
        match ws_send w msg with
        | Ok w' => (Ok tt, set_ws (Some w') c)
        | Raise e => (Raise e, c)
        end
    | None => (Ok tt, c)
    end.

(** [if not channel.startswith('#'): channel = f'#{channel}'] *)
Definition hashed (channel : str) : str :=
  if startswith channel [HASH] then channel else HASH :: channel.

Definition join (channel : str) : M SwarmIRC unit :=
  let channel := hashed channel in
  _send (s "JOIN " ++ channel) ;;
  modify (fun c => set_channels ({[channel]} ∪ channels c) c).

Definition part (channel reason : str) : M SwarmIRC unit :=
  let channel := hashed channel in
  _send (s "PART " ++ channel ++ s " :" ++ reason) ;;
  modify (fun c => set_channels (channels c ∖ {[channel]}) c).

Definition send (target message : str) : M SwarmIRC unit :=
  _send (s "PRIVMSG " ++ target ++ s " :" ++ message).

Definition who (channel : str) : M SwarmIRC unit :=
  let channel := hashed channel in
  _send (s "WHO " ++ channel).

Definition whois (nick : str) : M SwarmIRC unit :=
  _send (s "WHOIS " ++ nick).

Definition list_channels : M SwarmIRC unit :=
  _send (s "LIST").

Definition query (nick query_type : str) : M SwarmIRC unit :=
  _send (s "QUERY " ++ nick ++ s " " ++ query_type).

Definition register_command (command description : str) : M SwarmIRC unit :=
  _send (s "REGISTER " ++ command ++ s " :" ++ description).

Definition set_topic (channel topic_ : str) : M SwarmIRC unit :=
  let channel := hashed channel in
  _send (s "TOPIC " ++ channel ++ s " :" ++ topic_).

(** *** Protocol parsing *)

(** The state a dispatch runs in: the handlers' world, and a record of
    every handler call made, in order: the registry key, the position of
    the handler in that registry and the arguments. The record is
    observation only; nothing reads it. *)
Record Env := {
  world : W;
  calls : list (kind * nat * list str);
}.

(** The call [h(args...)] for the handler at position [i] of registry [k]. *)
Definition call (k : kind) (i : nat) (h : handler) (args : list str)
    : M Env unit :=
  fun e =>
    let (w', r) := h args (world e) in
    let e' := {| world := w'; calls := calls e ++ [(k, i, args)] |} in
    match r with
    | None => (Ok tt, e')
    | Some x => (Raise x, e')
    end.

(** [for h in hs: try: h(args...) / except: pass], with [i] the position of
    the head of [hs] in its registry. *)
Fixpoint for_handlers (k : kind) (i : nat) (hs : list handler)
    (args : list str) : M Env unit :=
  match hs with
  | [] => ret tt
  | h :: hs' =>
      try_pass (call k i h args) ;;
      for_handlers k (S i) hs' args
  end.

Definition fire (c : SwarmIRC) (k : kind) (args : list str) : M Env unit :=
  for_handlers k 0 (_handlers c k) args.

Definition _parse_line (c : SwarmIRC) (line : str) : M Env unit :=
  let line := strip line in
  if bool_decide (line = []) then ret tt
  else
    fire c raw [line] ;;
    match re_match LINE_RE line with
    | None => ret tt
    | Some m0 =>
        let prefix := group m0 1 in
        let command := group m0 2 in
        let params := group m0 3 in
        let sender := split_first BANG prefix in
        if eqb command (s "PRIVMSG") then
          match re_match PARAMS_RE params with
          | Some m => fire c message [sender; group m 1; group m 2]
          | None => ret tt
          end
        else if eqb command (s "JOIN") then
          let channel := strip params in
          fire c join_ [sender; channel]
        else if eqb command (s "PART") then
          let channel :=
            match re_match TOKEN_RE params with
            | Some m => group m 1
            | None => params
            end in
          fire c part_ [sender; channel]
        else if eqb command (s "QUERY") then
          match re_match PARAMS_RE params with
          | Some m => fire c query_ [sender; group m 1; group m 2]
          | None => ret tt
          end
        else if eqb command (s "CMD") then
          match re_match PARAMS_RE params with
          | Some m => fire c cmd [sender; group m 1; group m 2]
          | None => ret tt
          end
        else ret tt
    end.

(** *** Connection *)

(** [await self.ws.recv()] *)
Definition recv : M SwarmIRC str :=
  fun c =>
    match ws c with
    | None => (Raise AttributeError, c)
    | Some w =>
        match ws_recv w with
        | Ok (msg, w') => (Ok msg, set_ws (Some w') c)
        | Raise e => (Raise e, c)
        end
    end.

(** One turn of the [while True] of [connect] on the received [msg]:
    the updated client, and whether the loop breaks. *)
Definition auth_step (msg : str) (c : SwarmIRC) : SwarmIRC * bool :=
  let line := strip msg in
  let c :=
    if contains (s "001") line then
      let c :=
        match re_search WELCOME_RE line with
        | Some m => set_name (Some (group m 1)) c
        | None => c
        end in
      set_authenticated true c
    else c in
  (c, contains (s "376") line || contains (s "422") line).

(** The payload at the head of the connection has been delivered. *)
Definition delivered (rest : list str) (c : SwarmIRC) : SwarmIRC :=
  set_ws
    (match ws c with
     | Some w =>
         Some {| inbox := rest; outbox := outbox w; closed := closed w |}
     | None => None
     end) c.

(** The [while True] loop of [connect]. Every turn receives one payload,
    so the loop is a recursion on the payloads [pending] on the
    connection; when they run out [recv] raises. *)
Fixpoint auth_loop (pending : list str) : M SwarmIRC unit :=
  fun c =>
    match pending with
    | [] => (Raise ConnectionClosed, c)
    | msg :: rest =>
        let (c', stop) := auth_step msg (delivered rest c) in
        if stop then (Ok tt, c') else auth_loop rest c'
    end.

(** [connect], given what [websockets.connect(self.url)] yields. *)
Definition connect (dial : str -> result WebSocket) : M SwarmIRC bool :=
  c <- get ;;
  match dial (url c) with
  | Raise e => raise e
  | Ok w =>
      modify (set_ws (Some w)) ;;
      welcome <- recv ;;
      c <- get ;;
      _send (s "AUTH " ++ api_key c) ;;
      c <- get ;;
      auth_loop (match ws c with Some w => inbox w | None => [] end) ;;
      c <- get ;;
      ret (authenticated c)
  end.

(** The client in the middle of [connect] on a fresh connection: the
    banner is read, AUTH is sent, [msgs] are still to come. *)
Definition authenticating (c : SwarmIRC) (msgs : list str) : SwarmIRC :=
  set_ws (Some {| inbox := msgs; outbox := [s "AUTH " ++ api_key c];
                  closed := false |}) c.

(** [message.split('\r\n')], with the piece being collected in [cur]. *)
Fixpoint split_crlf (cur x : str) : list str :=
  match x with
  | [] => [cur]
  | 13%N :: 10%N :: x' => cur :: split_crlf [] x'
  | c :: x' => split_crlf (cur ++ [c]) x'
  end.

(** The body of [listen]'s [async for] for one received payload. *)
Fixpoint parse_lines (c : SwarmIRC) (lines : list str) : M Env unit :=
  match lines with
  | [] => ret tt
  | line :: rest => _parse_line c line ;; parse_lines c rest
  end.

Definition on_payload (c : SwarmIRC) (payload : str) : M Env unit :=
  parse_lines c (split_crlf [] (strip payload)).

End WithWorld.
Arguments SwarmIRC : clear implicits.
Arguments handler : clear implicits.

End Client.

(** ** class DiscordSwarmIRCBridge *)

Module Bridge.
Import Py Re Eff Transport.
Local Open Scope eff_scope.
Local Open Scope Z_scope.

(** [CHANNEL_MAPPINGS]: discord channel id -> swarmirc channel, a [dict]
    in insertion order. *)
Definition CHANNEL_MAPPINGS : list (Z * str) :=
  [ (1328042828462297282, s "general");
    (1446073956250419344, s "data");
    (1467232979314020494, s "research") ].

(** *** Insertion-ordered dictionaries *)

Fixpoint dict_get {V} (d : list (Z * V)) (k : Z) : option V :=
  match d with
  | [] => None
  | (k', v) :: d' => if k' =? k then Some v else dict_get d' k
  end.

(** [d[k] = v]: a present key keeps its place, a new one goes last. *)
Fixpoint dict_set {V} (d : list (Z * V)) (k : Z) (v : V) : list (Z * V) :=
  match d with
  | [] => [(k, v)]
  | (k', v') :: d' =>
      if k' =? k then (k, v) :: d' else (k', v') :: dict_set d' k v
  end.

(** [k in d] *)
Definition dict_mem {V} (d : list (Z * V)) (k : Z) : bool :=
  match dict_get d k with Some _ => true | None => false end.

(** *** The Discord client, at its boundary *)

Record Channel := {
  id : Z;
  cname : str;
}.

(** A [discord.Message] as the bridge reads it; [guild] says whether
    [message.guild] is set. *)
Record Message := {
  author_bot : bool;
  author_display_name : str;
  guild : bool;
  channel_id : Z;
  content : str;
}.

(** [get_channel] is the bot's channel cache; [accepts] says for which
    channels [channel.send] goes through rather than raising; [posted]
    lists the texts sent so far with their channel. *)
Record Discord := {
  get_channel : Z -> option Channel;
  accepts : Z -> bool;
  posted : list (Z * str);
}.

(** [await channel.send(text)] *)
Definition channel_send (ch : Channel) (text : str) : M Discord unit :=
  fun d =>
    if accepts d (id ch)
    then (Ok tt, {| get_channel := get_channel d; accepts := accepts d;
                    posted := posted d ++ [(id ch, text)] |})
    else (Raise (Exception (s "HTTPException")), d).

(** *** Calling a Python function

    A call binds its positional arguments to the parameters of the
    function and raises [TypeError] when their numbers differ. *)
Definition TypeError : exn := Exception (s "TypeError").

Definition bind_arguments {A} (parameters : nat) (args : list A)
    : result (list A) :=
  if Nat.eqb (length args) parameters then Ok args else Raise TypeError.

(** An [async def] called as a plain function, which is how
    [SwarmIRC._parse_line] calls its handlers: the call binds the
    arguments and returns a coroutine object. Nobody awaits the object, so
    the [body] does not run, and nothing the handler could reach
    changes. *)
Definition unawaited {W S} (parameters : nat)
    (body : list str -> M S unit) : Client.handler W :=
  fun args w =>
    match bind_arguments parameters args with
    | Ok _ => (w, None)
    | Raise x => (w, Some x)
    end.

(** What a caller may pass to the closure [on_message]: the bridge, or a
    Discord message. *)
Inductive argument :=
| the_bridge
| a_message (m : Message).

(** An event of the Discord client. *)
Inductive discord_event :=
| ready
| message_create (message : Message).

Section WithWorld.
Context {W : Type}.

Record DiscordSwarmIRCBridge := {
  discord : Discord;
  swarmirc : Client.SwarmIRC W;
  swarmirc_name : option str;
  bridged_channels : list (Z * str);
}.

Definition set_discord (v : Discord) (b : DiscordSwarmIRCBridge) :=
  {| discord := v; swarmirc := swarmirc b;
     swarmirc_name := swarmirc_name b;
     bridged_channels := bridged_channels b |}.

Definition set_swarmirc (v : Client.SwarmIRC W) (b : DiscordSwarmIRCBridge) :=
  {| discord := discord b; swarmirc := v;
     swarmirc_name := swarmirc_name b;
     bridged_channels := bridged_channels b |}.

Definition set_swarmirc_name (v : option str) (b : DiscordSwarmIRCBridge) :=
  {| discord := discord b; swarmirc := swarmirc b;
     swarmirc_name := v;
     bridged_channels := bridged_channels b |}.

Definition set_bridged_channels (v : list (Z * str))
    (b : DiscordSwarmIRCBridge) :=
  {| discord := discord b; swarmirc := swarmirc b;
     swarmirc_name := swarmirc_name b;
     bridged_channels := v |}.

(** A method of [self.swarmirc] run from the bridge. *)
Definition on_swarmirc {A} (m : M (Client.SwarmIRC W) A)
    : M DiscordSwarmIRCBridge A :=
  fun b =>
    let (r, c') := m (swarmirc b) in (r, set_swarmirc c' b).

(** A method of the Discord client run from the bridge. *)
Definition on_discord {A} (m : M Discord A) : M DiscordSwarmIRCBridge A :=
  fun b =>
    let (r, d') := m (discord b) in (r, set_discord d' b).

(** The loop of [on_ready] over [CHANNEL_MAPPINGS.items()]. *)
Fixpoint bridge_all (items : list (Z * str)) (b : DiscordSwarmIRCBridge)
    : DiscordSwarmIRCBridge :=
  match items with
  | [] => b
  | (discord_id, swarm_channel) :: items' =>
      let b :=
        match get_channel (discord b) discord_id with
        | Some _ =>
            set_bridged_channels
              (dict_set (bridged_channels b) discord_id swarm_channel) b
        | None => b
        end in
      bridge_all items' b
  end.

Definition on_ready : M DiscordSwarmIRCBridge unit :=
  modify (bridge_all CHANNEL_MAPPINGS).

(** The body of the closure [on_message(self, message)] when [self] is
    the bridge and [message] a Discord message. How the closure is called,
    and that discord.py never calls it so, is [on_message_closure] and
    [message_event] below. *)
Definition on_message (message : Message) : M DiscordSwarmIRCBridge unit :=
  if author_bot message || negb (guild message) then ret tt
  else
    b <- get ;;
    match dict_get (bridged_channels b) (channel_id message) with
    | None => ret tt
    | Some swarm_channel =>
        let content :=
          s "[Discord/" ++ author_display_name message ++ s "] "
            ++ content message in
        try_pass
          (on_swarmirc (Client.send (HASH :: swarm_channel) content))
    end.

(** [for did, sch in d.items(): if sch == swarm_channel: ... break] *)
Fixpoint find_discord_id (items : list (Z * str)) (swarm_channel : str)
    : option Z :=
  match items with
  | [] => None
  | (did, sch) :: items' =>
      if eqb sch swarm_channel then Some did
      else find_discord_id items' swarm_channel
  end.

(** The body of the coroutine function [on_swarm_message]: what would
    run if the coroutine a call returns were awaited. The client does not
    await it: see [unawaited] and [setup_swarmirc_handlers] below. *)
Definition on_swarm_message (sender target content : str)
    : M DiscordSwarmIRCBridge unit :=
  if negb (startswith target [HASH]) then ret tt
  else
    b <- get ;;
    if bool_decide (Some sender = swarmirc_name b) then ret tt
    else if startswith content (s "[Discord/") then ret tt
    else
      let swarm_channel := from1 target in
      let discord_channel_id :=
        find_discord_id (bridged_channels b) swarm_channel in
      match discord_channel_id with
      | None => ret tt
      | Some did =>
          (* [not discord_channel_id] also holds of the id 0 *)
          if did =? 0 then ret tt
          else
            match get_channel (discord b) did with
            | None => ret tt
            | Some discord_channel =>
                try_pass
                  (on_discord
                     (channel_send discord_channel
                        (s "**[SwarmIRC/" ++ sender ++ s "]** " ++ content)))
            end
      end.

(** The body of the coroutine function [on_swarm_raw], in the same
    sense. *)
Definition on_swarm_raw (line : str) : M DiscordSwarmIRCBridge unit :=
  b <- get ;;
  if contains (s "Welcome to ClawSwarm") line
     && bool_decide (swarmirc_name b = None)
  then
    match re_search WELCOME_RE line with
    | Some m => modify (set_swarmirc_name (Some (group m 1)))
    | None => ret tt
    end
  else ret tt.

(** The closure [on_message(self, message)] of
    [setup_discord_handlers] as a callable. It has two positional
    parameters. Called with both, its body first reads [message.author]
    and [message.guild], which the bridge does not have, and past that
    guard [self.bridged_channels], which a message does not have. *)
Definition on_message_closure (args : list argument)
    : M DiscordSwarmIRCBridge unit :=
  match bind_arguments 2 args with
  | Raise x => raise x
  | Ok [the_bridge; a_message message] => on_message message
  | Ok [a_message _; a_message message] =>
      if author_bot message || negb (guild message) then ret tt
      else raise AttributeError
  | Ok _ => raise AttributeError
  end.

(** The [message] event of discord.py: the library calls the coroutine
    function registered under the name [on_message] with the one argument
    of the event, the message, and logs whatever the handler raises. *)
Definition message_event (message : Message)
    : M DiscordSwarmIRCBridge unit :=
  try_pass (on_message_closure [a_message message]).

(** The [ready] event: [on_ready] has no parameter and the event no
    argument, so its body runs. *)
Definition ready_event : M DiscordSwarmIRCBridge unit :=
  try_pass on_ready.

(** The events of Discord that the bridge has a handler for, one after
    the other. *)
Definition dispatch (ev : discord_event) : M DiscordSwarmIRCBridge unit :=
  match ev with
  | ready => ready_event
  | message_create message => message_event message
  end.

Fixpoint dispatch_all (evs : list discord_event)
    : M DiscordSwarmIRCBridge unit :=
  match evs with
  | [] => ret tt
  | ev :: rest => dispatch ev ;; dispatch_all rest
  end.

(** [on_swarm_message] and [on_swarm_raw] by their positional
    arguments. *)
Definition on_swarm_message_args (args : list str)
    : M DiscordSwarmIRCBridge unit :=
  match args with
  | [sender; target; content] => on_swarm_message sender target content
  | _ => raise TypeError
  end.

Definition on_swarm_raw_args (args : list str)
    : M DiscordSwarmIRCBridge unit :=
  match args with
  | [line] => on_swarm_raw line
  | _ => raise TypeError
  end.

(** [setup_swarmirc_handlers]: both coroutine functions are registered
    with the client's decorators, the message handler first. *)
Definition setup_swarmirc_handlers (c : Client.SwarmIRC W)
    : Client.SwarmIRC W :=
  Client.on_raw (unawaited 1 on_swarm_raw_args)
    (Client.on_message (unawaited 3 on_swarm_message_args) c).

(** [__init__], given the Discord client the bot is built on. *)
Definition init (d : Discord) (url api_key : str) : DiscordSwarmIRCBridge :=
  {| discord := d;
     swarmirc := setup_swarmirc_handlers (Client.init url api_key);
     swarmirc_name := None; bridged_channels := [] |}.

End WithWorld.
Arguments DiscordSwarmIRCBridge : clear implicits.

End Bridge.

(** ** The line grammar, stated on its own

    The wire grammar of the protocol, as a relation between a line and its
    parts, independent of the matcher:
    [line := ":" sender-prefix SP command SP params]. *)

Module Grammar.
Import Py Re Eff Client.

(** A non-empty run of non-whitespace characters. *)
Definition token (x : str) : Prop :=
  x <> [] /\ Forall (fun c => isspace c = false) x.

(** A non-empty run of whitespace. *)
Definition spaces (x : str) : Prop :=
  x <> [] /\ Forall (fun c => isspace c = true) x.

Definition heads_with (p : char -> bool) (x : str) : bool :=
  match x with
  | c :: _ => p c
  | [] => false
  end.

(** [l] is [":" prefix SP command SP params], [params] being all that
    follows the separator. *)
Definition framed (l prefix command params : str) : Prop :=
  exists sp1 sp2,
    l = COLON :: prefix ++ sp1 ++ command ++ sp2 ++ params
    /\ token prefix /\ spaces sp1 /\ token command /\ spaces sp2
    /\ heads_with isspace params = false.

(** [params] is [tok SP ":" body]. *)
Definition trailing (params tok body : str) : Prop :=
  exists sp,
    params = tok ++ sp ++ COLON :: body /\ token tok /\ spaces sp.

(** What precedes the first line feed. *)
Definition first_line (x : str) : str :=
  take_while (fun c => negb (c =? NL)%N) x.

Definition known_commands : list str :=
  [s "PRIVMSG"; s "JOIN"; s "PART"; s "QUERY"; s "CMD"].

Definition colon_commands : list str :=
  [s "PRIVMSG"; s "QUERY"; s "CMD"].

(** The three ways a line can be malformed: no [:sender COMMAND] frame, a
    command that is not one of the five, or a command that wants
    [tok SP ":" body] and does not get it. *)
Definition malformed (line : str) : Prop :=
  let l := strip line in
  (~ exists prefix command params, framed l prefix command params)
  \/ (exists prefix command params,
        framed l prefix command params /\ ~ In command known_commands)
  \/ (exists prefix command params,
        framed l prefix command params /\ In command colon_commands
        /\ ~ exists tok body, trailing params tok body).

(** The calls that firing registry [k] of [c] on [args] records. *)
Definition invocations {W} (c : SwarmIRC W) (k : kind) (args : list str)
    : list (kind * nat * list str) :=
  map (fun i => (k, i, args)) (seq 0 (length (_handlers c k))).

(** The world after each of [hs] has run on [args], in order. *)
Definition run_all {W} (hs : list (handler W)) (args : list str) (w : W) : W :=
  fold_left (fun w h => fst (h args w)) hs w.

(** A maximal non-empty run of class [k] at the head of [x], and the
    rest. *)
Definition run (k : cclass) (x : str) : option (str * str) :=
  match x with
  | c :: x' =>
      if cmatch k c
      then Some (c :: take_while (cmatch k) x', drop_while (cmatch k) x')
      else None
  | [] => None
  end.

(** [LINE_RE] without backtracking. *)
Definition split_line (x : str) : option (list str) :=
  match x with
  | c :: x1 =>
      if (COLON =? c)%N then
        match run NonSpace x1 with
        | Some (prefix, r1) =>
            match run Space r1 with
            | Some (_, r2) =>
                match run NonSpace r2 with
                | Some (command, r3) =>
                    match run Space r3 with
                    | Some (_, r4) => Some [prefix; command; first_line r4]
                    | None => None
                    end
                | None => None
                end
            | None => None
            end
        | None => None
        end
      else None
  | [] => None
  end.

(** [PARAMS_RE] without backtracking. *)
Definition split_params (x : str) : option (list str) :=
  match run NonSpace x with
  | Some (tok, r1) =>
      match run Space r1 with
      | Some (_, c :: body) => if (COLON =? c)%N then Some [tok; body] else None
      | _ => None
      end
  | None => None
  end.

(** A payload of the handshake that carries the welcome numeric. *)
Definition welcome_seen (msg : str) : bool :=
  contains (s "001") (strip msg).

(** A payload of the handshake that carries an end-of-greeting numeric. *)
Definition greeting_end (msg : str) : bool :=
  contains (s "376") (strip msg) || contains (s "422") (strip msg).

(** [msgs] up to and including its first end-of-greeting payload [term]. *)
Definition window (msgs pre : list str) (term : str) (post : list str)
    : Prop :=
  msgs = pre ++ term :: post
  /\ Forall (fun m => greeting_end m = false) pre
  /\ greeting_end term = true.

(** The structured event of a stripped line, if it has one: the registry
    [_parse_line] fires after the raw handlers, and the arguments. *)
Definition event_of (line : str) : option (kind * list str) :=
  match re_match LINE_RE line with
  | None => None
  | Some m0 =>
      let command := group m0 2 in
      let params := group m0 3 in
      let sender := split_first BANG (group m0 1) in
      if eqb command (s "PRIVMSG") then
        match re_match PARAMS_RE params with
        | Some m => Some (message, [sender; group m 1; group m 2])
        | None => None
        end
      else if eqb command (s "JOIN") then
        Some (join_, [sender; strip params])
      else if eqb command (s "PART") then
        Some (part_,
              [sender;
               match re_match TOKEN_RE params with
               | Some m => group m 1
               | None => params
               end])
      else if eqb command (s "QUERY") then
        match re_match PARAMS_RE params with
        | Some m => Some (query_, [sender; group m 1; group m 2])
        | None => None
        end
      else if eqb command (s "CMD") then
        match re_match PARAMS_RE params with
        | Some m => Some (cmd, [sender; group m 1; group m 2])
        | None => None
        end
      else None
  end.

End Grammar.

(** ** Concrete clients, lines and messages *)

Module Examples.
Import Py Re Eff Transport Client Grammar.

(** A handler over a world of notes: it writes [tag] and returns. *)
Definition noting (tag : str) : handler (list str) :=
  fun _ w => (w ++ [tag], None).

(** A handler that writes [tag] and then raises. *)
Definition failing (tag : str) : handler (list str) :=
  fun _ w => (w ++ [tag], Some (Exception tag)).

Definition fresh : SwarmIRC (list str) :=
  init (s "wss://onlyflies.buzz/clawswarm/ws") (s "key").

(** Three message handlers, the second failing, and a raw handler. *)
Definition listener : SwarmIRC (list str) :=
  on_raw (noting (s "raw"))
    (on_message (noting (s "third"))
       (on_message (failing (s "second"))
          (on_message (noting (s "first")) fresh))).

Definition quiet : @Env (list str) := {| world := []; calls := [] |}.

(** A client whose connection is up. *)
Definition connected : SwarmIRC (list str) :=
  set_ws (Some (scripted [])) fresh.

Definition notice_line : str := s ":server NOTICE alice :hi".
Definition privmsg_line : str := s ":alice!u@h PRIVMSG #general :hello world".
Definition two_line_privmsg : str :=
  s ":alice!u@h PRIVMSG #general :hello" ++ [NL] ++ s "world".

(** A payload of three lines, the middle one a single space. *)
Definition three_line_payload : str :=
  s "PING" ++ [CR; NL; SP; CR; NL] ++ s "PONG".

Definition welcome_alice : str :=
  s ":server 001 alice :Welcome to ClawSwarm, alice!".
Definition end_of_motd : str := s ":server 376 alice :End of MOTD".

(** A Discord client that sees every channel and may post everywhere. *)
Definition open_discord : Bridge.Discord :=
  {| Bridge.get_channel :=
       fun i => Some {| Bridge.id := i; Bridge.cname := s "general" |};
     Bridge.accepts := fun _ => true;
     Bridge.posted := [] |}.

(** A new bridge on [open_discord], with the two handlers that
    [__init__] registers on its SwarmIRC client. *)
Definition new_bridge : Bridge.DiscordSwarmIRCBridge (list str) :=
  Bridge.init open_discord (url fresh) (api_key fresh).

(** The bridge once Discord is ready and the SwarmIRC connection is up. *)
Definition running_bridge : Bridge.DiscordSwarmIRCBridge (list str) :=
  Bridge.set_swarmirc_name (Some (s "bridge"))
    (Bridge.set_swarmirc
       (set_ws (Some (scripted [])) (Bridge.swarmirc new_bridge))
       (Bridge.bridge_all Bridge.CHANNEL_MAPPINGS new_bridge)).

(** A person on Discord types the tag of the SwarmIRC side by hand. *)
Definition typed_tag : Bridge.Message :=
  {| Bridge.author_bot := false;
     Bridge.author_display_name := s "bob";
     Bridge.guild := true;
     Bridge.channel_id := 1328042828462297282%Z;
     Bridge.content := s "**[SwarmIRC/alice]** hi" |}.

(** The relay's own post coming back from Discord. *)
Definition echoed_post : Bridge.Message :=
  {| Bridge.author_bot := true;
     Bridge.author_display_name := s "bridge";
     Bridge.guild := true;
     Bridge.channel_id := 1328042828462297282%Z;
     Bridge.content := s "**[SwarmIRC/alice]** hi" |}.

(** A message in a Discord channel that is not bridged. *)
Definition elsewhere : Bridge.Message :=
  {| Bridge.author_bot := false;
     Bridge.author_display_name := s "bob";
     Bridge.guild := true;
     Bridge.channel_id := 42%Z;
     Bridge.content := s "hi" |}.

End Examples.

(** ** The rest of the client's life cycle and of the bridge's start-up *)

Module Lifecycle.
Import Py Re Eff Transport Client Grammar.
Local Open Scope eff_scope.

(** [await ws.close()] *)
Definition ws_close (w : WebSocket) : WebSocket :=
  {| inbox := inbox w; outbox := outbox w; closed := true |}.

(** [CR LF], the separator of [listen]. *)
Definition CRLF : str := [CR; NL].

(** [sep.join(pieces)] *)
Fixpoint join_with (sep : str) (pieces : list str) : str :=
  match pieces with
  | [] => []
  | [x] => x
  | x :: rest => x ++ sep ++ join_with sep rest
  end.

Section WithWorld.
Context {W : Type}.

(** [disconnect] *)
Definition disconnect : M (SwarmIRC W) unit :=
  modify (set_running false) ;;
  c <- get ;;
  match ws c with
  | Some _ =>
      _send (s "QUIT :Goodbye") ;;
      modify (fun c => set_ws (ws_close <$> ws c) c)
  | None => ret tt
  end.

(** The [async for] of [listen] over the payloads that arrive. *)
Fixpoint pump (c : SwarmIRC W) (payloads : list str) : M (@Env W) unit :=
  match payloads with
  | [] => ret tt
  | payload :: rest => on_payload c payload ;; pump c rest
  end.

(** [listen], on the client and the handlers' environment. The iteration
    over the connection delivers what is pending and ends when the peer
    closes: quietly after a normal closure, with [ConnectionClosed] after
    an [abnormal] one, which [listen] catches. Without a connection the
    iteration itself fails. *)
Definition listen (abnormal : bool) : M (SwarmIRC W * @Env W) unit :=
  fun st =>
    let c := set_running true (fst st) in
    match ws c with
    | None => (Raise (Exception (s "TypeError")), (c, snd st))
    | Some w =>
        let drained :=
          set_ws (Some {| inbox := []; outbox := outbox w;
                          closed := closed w |}) c in
        match pump c (inbox w) (snd st) with
        | (Ok _, e') =>
            if abnormal then (Ok tt, (set_running false drained, e'))
            else (Ok tt, (drained, e'))
        | (Raise ConnectionClosed, e') =>
            (Ok tt, (set_running false drained, e'))
        | (Raise x, e') => (Raise x, (drained, e'))
        end
    end.


(** [for swarm_channel in self.bridged_channels.values():
     await self.swarmirc.join(swarm_channel)] *)
Fixpoint join_all (names : list str) : M (SwarmIRC W) unit :=
  match names with
  | [] => ret tt
  | swarm_channel :: rest => join swarm_channel ;; join_all rest
  end.



End WithWorld.

(** Every name of a set begins with [#]. *)
Definition all_hashed (names : gset str) : Prop :=
  forall n, n ∈ names -> startswith n [HASH] = true.

(** The last character of a string is not whitespace, if it has one. *)
Definition ends_clean (x : str) : Prop :=
  heads_with isspace (rev x) = false.

(** No line feed in a string. *)
Definition one_line (x : str) : Prop :=
  Forall (fun c => (c =? NL)%N = false) x.

(** The line a server relays when [nick] has sent [wire]. *)
Definition relayed (nick wire : str) : str :=
  COLON :: nick ++ SP :: wire.

End Lifecycle.

(** * Properties *)

(** ** The matcher on the patterns of the client *)

Module ReFacts.
Import Py Re Grammar.

Lemma take_drop_while (p : char -> bool) (x : str) :
  take_while p x ++ drop_while p x = x.
Proof.
  induction x as [|c x IH]; simpl; [reflexivity|].
  destruct (p c); simpl; [now rewrite IH | reflexivity].
Qed.

Lemma take_while_all (p : char -> bool) (x : str) :
  Forall (fun c => p c = true) (take_while p x).
Proof.
  induction x as [|c x IH]; simpl; [constructor|].
  destruct (p c) eqn:E; [constructor; assumption | constructor].
Qed.

Lemma drop_while_head (p : char -> bool) (x : str) :
  heads_with p (drop_while p x) = false.
Proof.
  induction x as [|c x IH]; simpl; [reflexivity|].
  destruct (p c) eqn:E; [assumption | simpl; assumption].
Qed.

Lemma take_while_app (p : char -> bool) (a r : str) :
  Forall (fun c => p c = true) a -> heads_with p r = false ->
  take_while p (a ++ r) = a.
Proof.
  induction 1 as [|c a Hc _ IH]; intros Hr; simpl.
  - destruct r as [|d r]; simpl in *; [reflexivity | now rewrite Hr].
  - rewrite Hc, IH by assumption. reflexivity.
Qed.

Lemma drop_while_app (p : char -> bool) (a r : str) :
  Forall (fun c => p c = true) a -> heads_with p r = false ->
  drop_while p (a ++ r) = r.
Proof.
  induction 1 as [|c a Hc _ IH]; intros Hr; simpl.
  - destruct r as [|d r]; simpl in *; [reflexivity | now rewrite Hr].
  - rewrite Hc. now apply IH.
Qed.

Lemma take_consumed (a t : str) :
  take (length (a ++ t) - length t) (a ++ t) = a.
Proof.
  rewrite length_app.
  replace (length a + length t - length t) with (length a) by lia.
  apply take_app_length.
Qed.

(** Once the rest of the pattern refuses every position inside a run, a
    greedy star stands at the end of the run. *)
Lemma star_commit {A} (k : cclass) (x : str) (cont : str -> option A) :
  (forall c t, cmatch k c = true -> cont (c :: t) = None) ->
  star k x cont = cont (drop_while (cmatch k) x).
Proof.
  intros H. induction x as [|c x IH]; simpl; [reflexivity|].
  destruct (cmatch k c) eqn:E; [|reflexivity].
  rewrite IH, (H c x E). now destruct (cont _).
Qed.

(** A star whose longest run is accepted by the rest takes it. *)
Lemma star_greedy {A} (k : cclass) (x : str) (cont : str -> option A) :
  is_Some (cont (drop_while (cmatch k) x)) ->
  star k x cont = cont (drop_while (cmatch k) x).
Proof.
  induction x as [|c x IH]; simpl; [reflexivity|].
  destruct (cmatch k c) eqn:E; [|reflexivity].
  intros Hs. rewrite (IH Hs). destruct Hs as [r Hr]. now rewrite Hr.
Qed.

Section Committed.
Context {A : Type}.
Variable k : cclass.
Variable cont : str -> list str -> option A.
Hypothesis refuses :
  forall c t caps, cmatch k c = true -> cont (c :: t) caps = None.

Lemma rx_plus (x : str) (caps : list str) :
  rx (Plus k) x caps cont =
  match run k x with
  | Some (_, r) => cont r caps
  | None => None
  end.
Proof.
  destruct x as [|c x]; simpl; [reflexivity|].
  destruct (cmatch k c) eqn:E; [|reflexivity].
  apply star_commit. intros; now apply refuses.
Qed.

Lemma rx_group_plus (x : str) (caps : list str) :
  rx (Group (Plus k)) x caps cont =
  match run k x with
  | Some (a, r) => cont r (caps ++ [a])
  | None => None
  end.
Proof.
  destruct x as [|c x]; [reflexivity|].
  cbn [rx run]. destruct (cmatch k c) eqn:E; [|reflexivity].
  rewrite star_commit by (intros; now apply refuses).
  do 2 f_equal. f_equal.
  rewrite <- (take_drop_while (cmatch k) x) at 1 3.
  apply (take_consumed (c :: take_while (cmatch k) x)).
Qed.
End Committed.

Lemma space_not_colon (c : char) : isspace c = true -> (COLON =? c)%N = false.
Proof.
  intros H. destruct (N.eqb_spec COLON c) as [<-|]; [discriminate H | reflexivity].
Qed.

Lemma rx_seq {A} r1 r2 x caps (cont : str -> list str -> option A) :
  rx (Seq r1 r2) x caps cont = rx r1 x caps (fun t caps' => rx r2 t caps' cont).
Proof. reflexivity. Qed.

Lemma rx_lit {A} a x caps (cont : str -> list str -> option A) :
  rx (One (Lit a)) x caps cont =
  match x with
  | c :: x' => if (a =? c)%N then cont x' caps else None
  | [] => None
  end.
Proof. reflexivity. Qed.

Lemma rx_plus_refuses {A} k r d t caps (cont : str -> list str -> option A) :
  cmatch k d = false -> rx (Seq (Plus k) r) (d :: t) caps cont = None.
Proof. intros H. cbn. now rewrite H. Qed.

Lemma rx_group_plus_refuses {A} k r d t caps
    (cont : str -> list str -> option A) :
  cmatch k d = false -> rx (Seq (Group (Plus k)) r) (d :: t) caps cont = None.
Proof. intros H. cbn. now rewrite H. Qed.

(** The last group of a pattern, a starred class, takes its longest run. *)
Lemma rx_last_star k x caps :
  rx (Group (Star k)) x caps (fun _ caps' => Some caps') =
  Some (caps ++ [take_while (cmatch k) x]).
Proof.
  cbn [rx]. rewrite star_greedy by (eexists; reflexivity).
  do 3 f_equal.
  rewrite <- (take_drop_while (cmatch k) x) at 1 3.
  apply take_consumed.
Qed.

Lemma rx_plus_unfold {A} k c x caps (cont : str -> list str -> option A) :
  rx (Plus k) (c :: x) caps cont =
  if cmatch k c then star k x (fun t => cont t caps) else None.
Proof. reflexivity. Qed.

Lemma rx_plus_last_star k k' x caps :
  rx (Seq (Plus k) (Group (Star k'))) x caps (fun _ caps' => Some caps') =
  match run k x with
  | Some (_, r) => Some (caps ++ [take_while (cmatch k') r])
  | None => None
  end.
Proof.
  rewrite rx_seq. destruct x as [|c x]; [reflexivity|].
  rewrite rx_plus_unfold. unfold run.
  destruct (cmatch k c); [|reflexivity].
  rewrite star_greedy; cbv beta; rewrite rx_last_star;
    [reflexivity | eexists; reflexivity].
Qed.

Lemma line_re_split (x : str) : re_match LINE_RE x = split_line x.
Proof.
  unfold re_match, LINE_RE, split_line.
  rewrite rx_seq, rx_lit.
  destruct x as [|c x]; [reflexivity|].
  destruct (COLON =? c)%N; [|reflexivity].
  rewrite rx_seq, rx_group_plus.
  2:{ intros d t caps Hd. apply rx_plus_refuses. cbn in *.
      now destruct (isspace d). }
  destruct (run NonSpace x) as [[prefix r1]|]; [|reflexivity].
  rewrite rx_seq, rx_plus.
  2:{ intros d t caps Hd. apply rx_group_plus_refuses. cbn in *.
      now rewrite Hd. }
  destruct (run Space r1) as [[sp1 r2]|]; [|reflexivity].
  rewrite rx_seq, rx_group_plus.
  2:{ intros d t caps Hd. apply rx_plus_refuses. cbn in *.
      now destruct (isspace d). }
  destruct (run NonSpace r2) as [[command r3]|]; [|reflexivity].
  rewrite rx_plus_last_star.
  destruct (run Space r3) as [[sp2 r4]|]; reflexivity.
Qed.

Lemma params_re_split (x : str) : re_match PARAMS_RE x = split_params x.
Proof.
  unfold re_match, PARAMS_RE, split_params.
  rewrite rx_seq, rx_group_plus.
  2:{ intros d t caps Hd. apply rx_plus_refuses. cbn in *.
      now destruct (isspace d). }
  destruct (run NonSpace x) as [[tok r1]|]; [|reflexivity].
  rewrite rx_seq, rx_plus.
  2:{ intros d t caps Hd. rewrite rx_seq, rx_lit.
      now rewrite space_not_colon. }
  destruct (run Space r1) as [[sp r2]|]; [|reflexivity].
  rewrite rx_seq, rx_lit.
  destruct r2 as [|c body]; [reflexivity|].
  destruct (COLON =? c)%N; [|reflexivity].
  rewrite rx_last_star. cbn [app]. do 3 f_equal.
  induction body as [|d body IH]; [reflexivity|]. cbn. now rewrite IH.
Qed.

Lemma run_spec k x a r :
  run k x = Some (a, r) <->
  x = a ++ r /\ a <> [] /\ Forall (fun c => cmatch k c = true) a
  /\ heads_with (cmatch k) r = false.
Proof.
  split.
  - destruct x as [|c x]; [discriminate|]. unfold run.
    destruct (cmatch k c) eqn:E; [|discriminate].
    intros [= <- <-]. repeat split.
    + cbn. now rewrite take_drop_while.
    + discriminate.
    + constructor; [assumption | apply take_while_all].
    + apply drop_while_head.
  - intros (-> & Hne & Hall & Hr).
    destruct a as [|c a]; [contradiction|].
    inversion Hall as [|? ? Hc Ha]; subst. cbn. rewrite Hc.
    now rewrite take_while_app, drop_while_app.
Qed.

Lemma token_nonspace x :
  token x <-> x <> [] /\ Forall (fun c => cmatch NonSpace c = true) x.
Proof.
  unfold token. split; intros [Hne H]; split; try assumption;
    eapply Forall_impl; try eassumption; cbn; intros c Hc;
    now destruct (isspace c).
Qed.

Lemma head_token x r : token x -> heads_with isspace (x ++ r) = false.
Proof.
  intros [Hne H]. destruct x as [|c x]; [contradiction|].
  inversion H; subst. assumption.
Qed.

Lemma head_spaces x r : spaces x -> heads_with (cmatch NonSpace) (x ++ r) = false.
Proof.
  intros [Hne H]. destruct x as [|c x]; [contradiction|].
  inversion H as [|? ? Hc]; subst. cbn. now rewrite Hc.
Qed.

Lemma run_token x r :
  token x -> heads_with (cmatch NonSpace) r = false ->
  run NonSpace (x ++ r) = Some (x, r).
Proof.
  intros Hx Hr. apply run_spec. apply token_nonspace in Hx as [? ?]. auto.
Qed.

Lemma run_spaces x r :
  spaces x -> heads_with isspace r = false ->
  run Space (x ++ r) = Some (x, r).
Proof. intros [? ?] Hr. apply run_spec. auto. Qed.

Lemma framed_split l prefix command params :
  framed l prefix command params ->
  split_line l = Some [prefix; command; first_line params].
Proof.
  intros (sp1 & sp2 & -> & Hp & Hs1 & Hc & Hs2 & Hq).
  unfold split_line. rewrite N.eqb_refl.
  rewrite (run_token _ _ Hp) by now apply head_spaces.
  rewrite (run_spaces _ _ Hs1) by now apply head_token.
  rewrite (run_token _ _ Hc) by now apply head_spaces.
  now rewrite (run_spaces _ _ Hs2).
Qed.

Lemma split_framed l m :
  split_line l = Some m ->
  exists prefix command params,
    m = [prefix; command; first_line params] /\ framed l prefix command params.
Proof.
  unfold split_line. destruct l as [|c l]; [discriminate|].
  destruct (N.eqb_spec COLON c) as [<-|]; [|discriminate].
  destruct (run NonSpace l) as [[prefix r1]|] eqn:E1; [|discriminate].
  destruct (run Space r1) as [[sp1 r2]|] eqn:E2; [|discriminate].
  destruct (run NonSpace r2) as [[command r3]|] eqn:E3; [|discriminate].
  destruct (run Space r3) as [[sp2 r4]|] eqn:E4; [|discriminate].
  intros [= <-]. exists prefix, command, r4. split; [reflexivity|].
  apply run_spec in E1 as (-> & ? & ? & _), E2 as (-> & ? & ? & _),
    E3 as (-> & ? & ? & _), E4 as (-> & ? & ? & Hr).
  exists sp1, sp2. repeat split; try assumption;
    try (apply token_nonspace; split; assumption).
Qed.

Lemma trailing_split params tok body :
  trailing params tok body -> split_params params = Some [tok; body].
Proof.
  intros (sp & -> & Ht & Hs). unfold split_params.
  rewrite (run_token _ _ Ht) by now apply head_spaces.
  rewrite (run_spaces _ _ Hs) by reflexivity.
  now rewrite N.eqb_refl.
Qed.

Lemma split_trailing params m :
  split_params params = Some m ->
  exists tok body, m = [tok; body] /\ trailing params tok body.
Proof.
  unfold split_params.
  destruct (run NonSpace params) as [[tok r1]|] eqn:E1; [|discriminate].
  destruct (run Space r1) as [[sp r2]|] eqn:E2; [|discriminate].
  destruct r2 as [|c body]; [discriminate|].
  destruct (N.eqb_spec COLON c) as [<-|]; [|discriminate].
  intros [= <-]. exists tok, body. split; [reflexivity|].
  apply run_spec in E1 as (-> & ? & ? & _), E2 as (-> & ? & ? & _).
  exists sp. repeat split; try assumption.
  apply token_nonspace; split; assumption.
Qed.

(** A parameter string cut at its first line feed still begins the way
    the whole does. *)
Lemma trailing_first_line params tok body :
  trailing (first_line params) tok body ->
  exists body', trailing params tok body'.
Proof.
  intros (sp & E & Ht & Hs).
  exists (body ++ drop_while (fun c => negb (c =? NL)%N) params), sp.
  repeat split; try apply Ht; try apply Hs.
  rewrite <- (take_drop_while (fun c => negb (c =? NL)%N) params) at 1.
  fold (first_line params). rewrite E.
  now rewrite <- !app_assoc.
Qed.

End ReFacts.

(** ** Dispatch *)

Module DispatchFacts.
Import Py Re Eff Transport Client Grammar ReFacts.

Section WithWorld.
Context {W : Type}.
Implicit Types (c : SwarmIRC W) (e : @Env W) (h : handler W).

(** The loop over a registry calls every handler once, in order, whatever
    each of them does, and returns. *)
Lemma for_handlers_spec k hs args : forall i e,
  for_handlers k i hs args e =
  (Ok tt, {| world := run_all hs args (world e);
             calls := calls e
                      ++ map (fun j => (k, j, args)) (seq i (length hs)) |}).
Proof.
  induction hs as [|h hs IH]; intros i e.
  - cbn. rewrite app_nil_r. now destruct e.
  - cbn [for_handlers]. unfold bind, try_pass, call.
    destruct (h args (world e)) as [w' r] eqn:Eh.
    assert (Hw : w' = fst (h args (world e))) by now rewrite Eh.
    destruct r; rewrite IH; cbn; rewrite <- app_assoc, Hw; reflexivity.
Qed.

Lemma fire_spec c k args e :
  fire c k args e =
  (Ok tt, {| world := run_all (_handlers c k) args (world e);
             calls := calls e ++ invocations c k args |}).
Proof. apply for_handlers_spec. Qed.

(** [_parse_line] fires the raw registry and then the registry of the
    line's event, if it has one. *)
Lemma parse_line_event c line :
  _parse_line c line =
  if bool_decide (strip line = []) then ret tt
  else bind (fire c raw [strip line])
         (fun _ => match event_of (strip line) with
                   | Some (k, args) => fire c k args
                   | None => ret tt
                   end).
Proof.
  unfold _parse_line, event_of.
  destruct (bool_decide (strip line = [])); [reflexivity|].
  f_equal.
  destruct (re_match LINE_RE (strip line)) as [m0|]; [|reflexivity].
  repeat (match goal with
          | |- context [if ?b then _ else _] => destruct b
          | |- context [match re_match PARAMS_RE ?x with _ => _ end] =>
              destruct (re_match PARAMS_RE x)
          end; try reflexivity).
Qed.

Lemma event_of_kind l k args :
  event_of l = Some (k, args) ->
  In k [message; join_; part_; query_; cmd].
Proof.
  unfold event_of.
  destruct (re_match LINE_RE l) as [m0|]; [|discriminate].
  repeat (match goal with
          | |- context [if ?b then _ else _] => destruct b
          | |- context [match re_match PARAMS_RE ?x with _ => _ end] =>
              destruct (re_match PARAMS_RE x)
          end; try discriminate);
    intros [= <- <-]; cbn; tauto.
Qed.

(** What a dispatch of a non-blank line leaves behind. *)
Lemma parse_line_spec c line e :
  strip line <> [] ->
  _parse_line c line e =
  (Ok tt,
   let l := strip line in
   let w := run_all (_handlers c raw) [l] (world e) in
   match event_of l with
   | Some (k, args) =>
       {| world := run_all (_handlers c k) args w;
          calls := calls e ++ invocations c raw [l]
                   ++ invocations c k args |}
   | None =>
       {| world := w; calls := calls e ++ invocations c raw [l] |}
   end).
Proof.
  intros Hne. rewrite parse_line_event.
  rewrite bool_decide_eq_false_2 by assumption.
  unfold bind. rewrite fire_spec. cbn zeta.
  destruct (event_of (strip line)) as [[k args]|]; [|reflexivity].
  rewrite fire_spec. cbn. now rewrite <- app_assoc.
Qed.

Lemma parse_line_blank c line e :
  strip line = [] -> _parse_line c line e = (Ok tt, e).
Proof.
  intros H. unfold _parse_line. now rewrite bool_decide_eq_true_2.
Qed.

(** A malformed line has no event. *)
Lemma malformed_no_event line :
  malformed line -> event_of (strip line) = None.
Proof.
  unfold malformed, event_of. cbn zeta. rewrite line_re_split.
  intros [Hno | [(p & c0 & q & Hf & Hunk) | (p & c0 & q & Hf & Hcol & Hno)]].
  - destruct (split_line (strip line)) as [m|] eqn:E; [|reflexivity].
    apply split_framed in E as (p & c0 & q & _ & Hf).
    exfalso. apply Hno. eauto.
  - rewrite (framed_split _ _ _ _ Hf). cbn [group Nat.sub nth].
    unfold eqb.
    repeat (case_bool_decide;
            [exfalso; apply Hunk; subst c0; cbn; tauto|]).
    reflexivity.
  - rewrite (framed_split _ _ _ _ Hf). cbn [group Nat.sub nth].
    rewrite params_re_split.
    destruct (split_params (first_line q)) as [m|] eqn:E.
    + exfalso. apply split_trailing in E as (tok & body & _ & Ht).
      apply trailing_first_line in Ht as [body' Ht]. apply Hno. eauto.
    + unfold eqb. cbn in Hcol.
      destruct Hcol as [<-|[<-|[<-|[]]]];
        repeat (case_bool_decide; try discriminate; try reflexivity).
Qed.

End WithWorld.

End DispatchFacts.

(** ** The parser and the dispatcher *)

Module ParserProps.
Import Py Re Eff Transport Client Grammar ReFacts DispatchFacts Examples.

(** C3. A malformed line (no [:sender COMMAND] frame, an unknown command,
    or a PRIVMSG, QUERY or CMD without its [tok SP ":" body] parameters)
    makes [_parse_line] return normally, and the only handler calls it
    makes are those of the raw registry, each once and in order (none at
    all when the line is blank). *)
Theorem malformed_line_raw_only {W} (c : SwarmIRC W) (line : str)
    (e : @Env W) :
  malformed line ->
  exists e',
    _parse_line c line e = (Ok tt, e')
    /\ calls e' =
       calls e ++ (if bool_decide (strip line = []) then []
                   else invocations c raw [strip line])
    /\ Forall (fun x => fst (fst x) = raw)
         (drop (length (calls e)) (calls e')).
Proof.
  intros Hbad. destruct (decide (strip line = [])) as [Hb|Hb].
  - exists e. rewrite parse_line_blank, bool_decide_eq_true_2 by assumption.
    rewrite app_nil_r, drop_all. repeat split. constructor.
  - rewrite parse_line_spec, bool_decide_eq_false_2 by assumption.
    cbn zeta. rewrite (malformed_no_event _ Hbad).
    eexists. split; [reflexivity|]. cbn [calls]. split; [reflexivity|].
    rewrite drop_app_length. unfold invocations.
    apply Forall_map, Forall_forall. reflexivity.
Qed.

Lemma notice_line_malformed : malformed notice_line.
Proof.
  right; left. exists (s "server"), (s "NOTICE"), (s "alice :hi").
  split.
  - exists [SP], [SP]. repeat split; try discriminate; repeat constructor.
  - cbn. intros [H|[H|[H|[H|[H|[]]]]]]; discriminate H.
Qed.

Lemma malformed_line_raw_only_witness :
  malformed notice_line
  /\ exists e',
       _parse_line listener notice_line quiet = (Ok tt, e')
       /\ calls e' =
          calls quiet ++ (if bool_decide (strip notice_line = []) then []
                          else invocations listener raw [strip notice_line])
       /\ Forall (fun x => fst (fst x) = raw)
            (drop (length (calls quiet)) (calls e')).
Proof.
  split; [exact notice_line_malformed|].
  apply (malformed_line_raw_only listener notice_line quiet).
  exact notice_line_malformed.
Defined.

(** The event of a PRIVMSG line: the sender is the prefix up to its first
    [!], and the target and body are those of the parameters up to the
    first line feed. *)
Lemma privmsg_event l prefix params target body :
  framed l prefix (s "PRIVMSG") params ->
  trailing (first_line params) target body ->
  event_of l = Some (message, [split_first BANG prefix; target; body]).
Proof.
  intros Hf Ht. unfold event_of.
  rewrite line_re_split, (framed_split _ _ _ _ Hf).
  cbn [group Nat.sub nth]. unfold eqb at 1.
  rewrite bool_decide_eq_true_2 by reflexivity.
  now rewrite params_re_split, (trailing_split _ _ _ Ht).
Qed.

(** C6, as the client has it. For every line that is not blank (not empty
    once stripped), [_parse_line] returns normally having called the raw
    handlers first, each once and in order, and after them the handlers of
    at most one registry among message, join, part, query and cmd; a
    malformed line calls the raw handlers only. *)
Theorem nonblank_line_dispatch {W} (c : SwarmIRC W) (line : str)
    (e : @Env W) :
  strip line <> [] ->
  exists e' structured,
    _parse_line c line e = (Ok tt, e')
    /\ calls e' = calls e ++ invocations c raw [strip line] ++ structured
    /\ (structured = []
        \/ exists k args,
             In k [message; join_; part_; query_; cmd]
             /\ structured = invocations c k args)
    /\ (malformed line -> structured = []).
Proof.
  intros Hne. rewrite parse_line_spec by assumption. cbn zeta.
  destruct (event_of (strip line)) as [[k args]|] eqn:Ev.
  - eexists _, (invocations c k args). split; [reflexivity|].
    split; [reflexivity|]. split.
    + right. exists k, args. split; [|reflexivity].
      eapply event_of_kind, Ev.
    + intros Hbad. apply malformed_no_event in Hbad. congruence.
  - eexists _, []. split; [reflexivity|]. cbn [calls].
    rewrite app_nil_r. auto.
Qed.

Lemma nonblank_line_dispatch_witness :
  strip privmsg_line <> []
  /\ exists e' structured,
       _parse_line listener privmsg_line quiet = (Ok tt, e')
       /\ calls e' =
          calls quiet ++ invocations listener raw [strip privmsg_line]
            ++ structured
       /\ (structured = []
           \/ exists k args,
                In k [message; join_; part_; query_; cmd]
                /\ structured = invocations listener k args)
       /\ (malformed privmsg_line -> structured = []).
Proof.
  assert (H : strip privmsg_line <> []) by (vm_compute; discriminate).
  split; [exact H|].
  exact (nonblank_line_dispatch listener privmsg_line quiet H).
Defined.

(** C6, as stated, fails on a line of one space: the line is not the empty
    string, a raw handler is registered, and no handler is called. *)
Lemma blank_line_fires_nothing :
  [SP] <> []
  /\ length (_handlers listener raw) = 1
  /\ _parse_line listener [SP] quiet = (Ok tt, quiet)
  /\ split_crlf [] (strip three_line_payload) = [s "PING"; [SP]; s "PONG"]
  /\ calls (snd (on_payload listener three_line_payload quiet))
     = [(raw, 0, [s "PING"]); (raw, 0, [s "PONG"])].
Proof. repeat split. discriminate. Qed.

(** C4. With three message handlers registered of which the second always
    raises, a PRIVMSG line makes [_parse_line] return normally after
    calling the raw handlers and then the first, second and third message
    handler, in that order, each on the sender, target and body of the
    line; the world is the one the third handler leaves, run on what the
    second left when it raised. *)
Theorem failing_handler_isolated {W} (c : SwarmIRC W) (h1 h2 h3 : handler W)
    (line prefix params target body : str) (e : @Env W) :
  _handlers c message = [h1; h2; h3] ->
  (forall args w, snd (h2 args w) <> None) ->
  framed (strip line) prefix (s "PRIVMSG") params ->
  trailing (first_line params) target body ->
  let args := [split_first BANG prefix; target; body] in
  let w0 := run_all (_handlers c raw) [strip line] (world e) in
  exists e',
    _parse_line c line e = (Ok tt, e')
    /\ calls e' =
       calls e ++ invocations c raw [strip line]
         ++ [(message, 0, args); (message, 1, args); (message, 2, args)]
    /\ world e' = fst (h3 args (fst (h2 args (fst (h1 args w0))))).
Proof.
  intros Hreg _ Hf Ht args w0.
  assert (Hne : strip line <> []).
  { destruct Hf as (? & ? & -> & _). discriminate. }
  rewrite parse_line_spec by assumption. cbn zeta.
  rewrite (privmsg_event _ _ _ _ _ Hf Ht).
  eexists. split; [reflexivity|].
  unfold invocations at 2. rewrite Hreg. split; reflexivity.
Qed.

Lemma privmsg_line_framed :
  framed (strip privmsg_line) (s "alice!u@h") (s "PRIVMSG")
    (s "#general :hello world").
Proof.
  exists [SP], [SP]. repeat split; try discriminate; repeat constructor.
Qed.

Lemma privmsg_line_trailing :
  trailing (first_line (s "#general :hello world")) (s "#general")
    (s "hello world").
Proof.
  exists [SP]. repeat split; try discriminate; repeat constructor.
Qed.

Lemma failing_handler_isolated_witness :
  let args := [s "alice"; s "#general"; s "hello world"] in
  exists e',
    _parse_line listener privmsg_line quiet = (Ok tt, e')
    /\ calls e' =
       calls quiet ++ invocations listener raw [strip privmsg_line]
         ++ [(message, 0, args); (message, 1, args); (message, 2, args)]
    /\ world e' = [s "raw"; s "first"; s "second"; s "third"].
Proof.
  exact (failing_handler_isolated listener
           (noting (s "first")) (failing (s "second")) (noting (s "third"))
           privmsg_line (s "alice!u@h") (s "#general :hello world")
           (s "#general") (s "hello world") quiet
           eq_refl
           (fun _ _ (H : Some (Exception (s "second")) = None) =>
              match H with end)
           privmsg_line_framed privmsg_line_trailing).
Defined.

(** C7. On a PRIVMSG whose body holds a line feed the message handlers get
    the body only up to that line feed: the line pattern stops its last
    group there, so [hello] arrives where the line carried [hello],
    a line feed and [world]. *)
Theorem privmsg_body_cut_at_newline {W} (c : SwarmIRC W) (e : @Env W) :
  framed two_line_privmsg (s "alice!u@h") (s "PRIVMSG")
    (s "#general :hello" ++ [NL] ++ s "world")
  /\ trailing (s "#general :hello" ++ [NL] ++ s "world") (s "#general")
       (s "hello" ++ [NL] ++ s "world")
  /\ _parse_line c two_line_privmsg e =
     (Ok tt,
      {| world :=
           run_all (_handlers c message) [s "alice"; s "#general"; s "hello"]
             (run_all (_handlers c raw) [two_line_privmsg] (world e));
         calls :=
           calls e ++ invocations c raw [two_line_privmsg]
             ++ invocations c message [s "alice"; s "#general"; s "hello"] |}).
Proof.
  split; [|split].
  - exists [SP], [SP]. repeat split; try discriminate; repeat constructor.
  - exists [SP]. repeat split; try discriminate; repeat constructor.
  - rewrite parse_line_spec by (vm_compute; discriminate). reflexivity.
Qed.

End ParserProps.

(** ** Actions *)

Module ActionProps.
Import Py Re Eff Transport Client Grammar Examples.

Section WithWorld.
Context {W : Type}.
Implicit Types (c : SwarmIRC W).

Lemma send_offline c msg : ws c = None -> _send msg c = (Ok tt, c).
Proof. intros H. unfold _send. now rewrite H. Qed.

Lemma send_online c w msg :
  ws c = Some w -> closed w = false ->
  _send msg c =
  (Ok tt,
   set_ws (Some {| inbox := inbox w; outbox := outbox w ++ [msg];
                   closed := false |}) c).
Proof. intros H Hc. unfold _send, ws_send. now rewrite H, Hc. Qed.

Lemma hashed_hash ch :
  startswith ch [HASH] = false -> hashed (HASH :: ch) = hashed ch.
Proof. intros H. unfold hashed. now rewrite H. Qed.
End WithWorld.

(** C9. Without a connection ([ws] is [None]) each of the nine actions
    returns normally and leaves the client as it was, still without a
    connection, so nothing is sent; [join] and [part] alone change it, by
    adding the [#]-prefixed channel to [channels] and removing it. *)
Theorem offline_actions {W} (c : SwarmIRC W) :
  ws c = None ->
  (forall ch,
      join ch c = (Ok tt, set_channels ({[hashed ch]} ∪ channels c) c))
  /\ (forall ch reason,
        part ch reason c
        = (Ok tt, set_channels (channels c ∖ {[hashed ch]}) c))
  /\ (forall target msg, send target msg c = (Ok tt, c))
  /\ (forall ch, who ch c = (Ok tt, c))
  /\ (forall nick, whois nick c = (Ok tt, c))
  /\ list_channels c = (Ok tt, c)
  /\ (forall nick query_type, query nick query_type c = (Ok tt, c))
  /\ (forall command description,
        register_command command description c = (Ok tt, c))
  /\ (forall ch topic_, set_topic ch topic_ c = (Ok tt, c))
  /\ (forall v, ws (set_channels v c) = None).
Proof.
  intros H.
  repeat split; intros;
    unfold join, part, send, who, whois, list_channels, query,
      register_command, set_topic, bind, modify;
    rewrite ?send_offline by assumption; try reflexivity; assumption.
Qed.

Lemma offline_actions_witness :
  ws fresh = None
  /\ join (s "general") fresh
     = (Ok tt, set_channels ({[s "#general"]} ∪ channels fresh) fresh)
  /\ send (s "#general") (s "hi") fresh = (Ok tt, fresh).
Proof.
  split; [reflexivity|].
  pose proof (offline_actions fresh eq_refl) as (Hj & _ & Hs & _).
  split; [exact (Hj (s "general")) | exact (Hs (s "#general") (s "hi"))].
Defined.

(** C2, as the client has it. For a channel name without a leading [#],
    [join] and [part] do exactly the same with the name and with its
    [#]-prefixed form: the same line on the wire, the same change to
    [channels], the same outcome. [send] takes a target, which may be a
    nick, and puts it on the wire as it is given. *)
Theorem hash_normalisation {W} (c : SwarmIRC W) (ch : str) :
  startswith ch [HASH] = false ->
  join ch c = join (HASH :: ch) c
  /\ (forall reason, part ch reason c = part (HASH :: ch) reason c)
  /\ (forall w target msg,
        ws c = Some w -> closed w = false ->
        send target msg c =
        (Ok tt,
         set_ws
           (Some {| inbox := inbox w;
                    outbox := outbox w
                              ++ [s "PRIVMSG " ++ target ++ s " :" ++ msg];
                    closed := false |}) c)).
Proof.
  intros H. split; [|split].
  - unfold join. now rewrite hashed_hash.
  - intros reason. unfold part. now rewrite hashed_hash.
  - intros w target msg Hw Hc. unfold send. now apply send_online.
Qed.

Lemma hash_normalisation_witness :
  startswith (s "general") [HASH] = false
  /\ join (s "general") connected = join (s "#general") connected
  /\ (forall reason,
        part (s "general") reason connected
        = part (s "#general") reason connected).
Proof.
  split; [reflexivity|].
  pose proof (hash_normalisation connected (s "general") eq_refl)
    as (Hj & Hp & _).
  split; [exact Hj | exact Hp].
Defined.

(** C2, as stated, fails for [send]: on a connected client the target
    [general] and the target [#general] put different lines on the wire. *)
Lemma send_keeps_target :
  startswith (s "general") [HASH] = false
  /\ (outbox <$> ws (snd (send (s "general") (s "hi") connected)))
     = Some [s "PRIVMSG general :hi"]
  /\ (outbox <$> ws (snd (send (s "#general") (s "hi") connected)))
     = Some [s "PRIVMSG #general :hi"]
  /\ send (s "general") (s "hi") connected
     <> send (s "#general") (s "hi") connected.
Proof.
  repeat split. intros H.
  apply (f_equal (fun r => outbox <$> ws (snd r))) in H. discriminate H.
Qed.

End ActionProps.

(** ** The handshake *)

Module HandshakeProps.
Import Py Re Eff Transport Client Grammar Examples.

Section WithWorld.
Context {W : Type}.
Implicit Types (c : SwarmIRC W).

(** A turn of the loop takes its payload the way [recv] does. *)
Lemma recv_delivered c w msg rest :
  ws c = Some w -> inbox w = msg :: rest ->
  recv c = (Ok msg, delivered rest c).
Proof.
  intros Hw Hi. unfold recv, delivered, ws_recv. now rewrite Hw, Hi.
Qed.

Lemma recv_exhausted c w :
  ws c = Some w -> inbox w = [] -> recv c = (Raise ConnectionClosed, c).
Proof. intros Hw Hi. unfold recv, ws_recv. now rewrite Hw, Hi. Qed.

Lemma connect_unfold c banner msgs :
  connect (fun _ => Ok (scripted (banner :: msgs))) c =
  match auth_loop msgs (authenticating c msgs) with
  | (Ok _, c') => (Ok (authenticated c'), c')
  | (Raise x, c') => (Raise x, c')
  end.
Proof.
  unfold connect, bind, get, modify, recv, _send, ret. cbn.
  destruct (auth_loop msgs _) as [[[]|x] c']; reflexivity.
Qed.

Lemma auth_step_authenticated msg c :
  authenticated (fst (auth_step msg c)) = authenticated c || welcome_seen msg.
Proof.
  unfold auth_step, welcome_seen. cbv zeta. cbn [fst].
  destruct (contains (s "001") (strip msg)).
  - cbn [authenticated set_authenticated]. now rewrite orb_true_r.
  - now rewrite orb_false_r.
Qed.

Lemma auth_step_stop msg c : snd (auth_step msg c) = greeting_end msg.
Proof. reflexivity. Qed.

Lemma auth_step_name msg c :
  (welcome_seen msg = true -> re_search WELCOME_RE (strip msg) = None) ->
  name (fst (auth_step msg c)) = name c.
Proof.
  unfold auth_step, welcome_seen. cbv zeta. cbn [fst].
  destruct (contains (s "001") (strip msg)); [|reflexivity].
  intros H. now rewrite H.
Qed.

(** The loop on a list of payloads holding an end-of-greeting payload:
    it returns at the first one, authenticated if the client was or if a
    payload up to there carried the welcome numeric. *)
Lemma auth_loop_window pre term post : forall c,
  Forall (fun m => greeting_end m = false) pre ->
  greeting_end term = true ->
  exists c',
    auth_loop (pre ++ term :: post) c = (Ok tt, c')
    /\ authenticated c'
       = authenticated c || existsb welcome_seen (pre ++ [term])
    /\ (Forall (fun m => welcome_seen m = true ->
                         re_search WELCOME_RE (strip m) = None)
          (pre ++ [term]) ->
        name c' = name c).
Proof.
  induction pre as [|m pre IH]; intros c Hpre Hterm; cbn [app auth_loop].
  - pose proof (auth_step_stop term (delivered post c)) as Hs.
    pose proof (auth_step_authenticated term (delivered post c)) as Ha.
    pose proof (auth_step_name term (delivered post c)) as Hn.
    destruct (auth_step term (delivered post c)) as [c' stop].
    cbn in Hs, Ha, Hn. rewrite Hs, Hterm. exists c'.
    split; [reflexivity|]. split.
    + cbn. now rewrite orb_false_r.
    + intros HF. inversion HF; subst. now apply Hn.
  - inversion Hpre as [|? ? Hm Hpre']; subst.
    pose proof (auth_step_stop m (delivered (pre ++ term :: post) c)) as Hs.
    pose proof (auth_step_authenticated m
                  (delivered (pre ++ term :: post) c)) as Ha.
    pose proof (auth_step_name m (delivered (pre ++ term :: post) c)) as Hn.
    destruct (auth_step m (delivered (pre ++ term :: post) c)) as [c1 stop].
    cbn in Hs, Ha, Hn. rewrite Hs, Hm.
    destruct (IH c1 Hpre' Hterm) as (c' & E & Ha' & Hn').
    exists c'. split; [exact E|]. split.
    + rewrite Ha', Ha. cbn. now rewrite orb_assoc.
    + intros HF. inversion HF; subst. rewrite Hn' by assumption.
      now apply Hn.
Qed.

(** The loop returns only if an end-of-greeting payload arrives. *)
Lemma auth_loop_returns msgs : forall c c',
  auth_loop msgs c = (Ok tt, c') ->
  exists pre term post, window msgs pre term post.
Proof.
  induction msgs as [|m msgs IH]; intros c c'; cbn [auth_loop].
  - discriminate.
  - pose proof (auth_step_stop m (delivered msgs c)) as Hs.
    destruct (auth_step m (delivered msgs c)) as [c1 stop].
    cbn in Hs. subst stop.
    destruct (greeting_end m) eqn:Hm.
    + intros _. exists [], m, msgs. repeat split; [constructor | exact Hm].
    + intros E. apply IH in E as (pre & term & post & -> & Hpre & Hterm).
      exists (m :: pre), term, post.
      repeat split; [constructor; assumption | exact Hterm].
Qed.
End WithWorld.

(** C5. On a transport that delivers a banner, then the welcome line for
    [alice], then the end-of-MOTD line, [connect] returns [True] and
    leaves [name] equal to [alice] and [authenticated] true, whatever the
    banner and the client it starts from. *)
Theorem handshake_alice {W} (c : SwarmIRC W) (banner : str) :
  exists c',
    connect (fun _ => Ok (scripted [banner; welcome_alice; end_of_motd])) c
    = (Ok true, c')
    /\ name c' = Some (s "alice")
    /\ authenticated c' = true.
Proof.
  rewrite connect_unfold. vm_compute. eexists. repeat split.
Qed.

(** C10. From a client that is not yet authenticated and has no name,
    [connect] returns [True] exactly when the payloads after the banner
    hold an end-of-greeting payload (one containing [376] or [422]) and
    some payload up to and including the first of these contains [001],
    anywhere in it. If moreover none of those payloads containing [001]
    matches the welcome pattern, [connect] leaves [authenticated] true and
    [name] still [None]. *)
Theorem connect_true_iff {W} (c : SwarmIRC W) (banner : str)
    (msgs : list str) :
  authenticated c = false ->
  name c = None ->
  let r := connect (fun _ => Ok (scripted (banner :: msgs))) c in
  (fst r = Ok true <->
   exists pre term post,
     window msgs pre term post
     /\ existsb welcome_seen (pre ++ [term]) = true)
  /\ (forall pre term post,
        window msgs pre term post ->
        existsb welcome_seen (pre ++ [term]) = true ->
        Forall (fun m => welcome_seen m = true ->
                         re_search WELCOME_RE (strip m) = None)
          (pre ++ [term]) ->
        fst r = Ok true
        /\ authenticated (snd r) = true /\ name (snd r) = None).
Proof.
  intros Hauth Hname r. subst r. rewrite connect_unfold.
  assert (Hstep : forall pre term post,
             window msgs pre term post ->
             exists c',
               auth_loop msgs (authenticating c msgs) = (Ok tt, c')
               /\ authenticated c' = existsb welcome_seen (pre ++ [term])
               /\ (Forall (fun m => welcome_seen m = true ->
                                    re_search WELCOME_RE (strip m) = None)
                     (pre ++ [term]) -> name c' = None)).
  { intros pre term post (-> & Hpre & Hterm).
    destruct (auth_loop_window pre term post (authenticating c
                (pre ++ term :: post)) Hpre Hterm) as (c' & E & Ha & Hn).
    exists c'. split; [exact E|]. split.
    - rewrite Ha. cbn. now rewrite Hauth.
    - intros HF. rewrite (Hn HF). exact Hname. }
  split; [split|].
  - destruct (auth_loop msgs (authenticating c msgs)) as [[[]|x] c'] eqn:E;
      [|discriminate].
    cbn. intros [= Ha].
    destruct (auth_loop_returns _ _ _ E) as (pre & term & post & Hw).
    exists pre, term, post. split; [exact Hw|].
    destruct (Hstep _ _ _ Hw) as (c2 & E2 & Ha2 & _).
    assert (c2 = c') by congruence. subst c2. congruence.
  - intros (pre & term & post & Hw & Hseen).
    destruct (Hstep _ _ _ Hw) as (c' & -> & Ha & _). cbn.
    now rewrite Ha, Hseen.
  - intros pre term post Hw Hseen HF.
    destruct (Hstep _ _ _ Hw) as (c' & -> & Ha & Hn). cbn.
    rewrite Ha, Hseen. auto.
Qed.

Lemma connect_true_iff_witness :
  let r := connect
             (fun _ => Ok (scripted [s "hello"; s ":server NOTICE * :id 10012";
                                     s ":server 376 alice :End of MOTD"]))
             fresh in
  fst r = Ok true /\ authenticated (snd r) = true /\ name (snd r) = None.
Proof.
  refine (proj2 (connect_true_iff fresh (s "hello")
                   [s ":server NOTICE * :id 10012";
                    s ":server 376 alice :End of MOTD"] eq_refl eq_refl)
            [s ":server NOTICE * :id 10012"]
            (s ":server 376 alice :End of MOTD") [] _ _ _).
  - repeat split. repeat constructor.
  - reflexivity.
  - repeat constructor.
Defined.

(** [authenticated] is never reset: a client that is already authenticated
    gets [True] from [connect] as soon as the greeting ends. *)
Lemma connect_again {W} (c : SwarmIRC W) (banner : str) (msgs : list str)
    (pre : list str) (term : str) (post : list str) :
  authenticated c = true ->
  window msgs pre term post ->
  fst (connect (fun _ => Ok (scripted (banner :: msgs))) c) = Ok true.
Proof.
  intros Ha (-> & Hpre & Hterm). rewrite connect_unfold.
  destruct (auth_loop_window pre term post
              (authenticating c (pre ++ term :: post)) Hpre Hterm)
    as (c' & -> & Ha' & _).
  cbn [fst]. rewrite Ha'. cbn [authenticated authenticating set_ws].
  now rewrite Ha.
Qed.

End HandshakeProps.

(** ** The relay *)

Module RelayProps.
Import Py Re Eff Transport Grammar Examples Bridge.

Section WithWorld.
Context {W : Type}.
Implicit Types (b : DiscordSwarmIRCBridge W).

Lemma find_discord_id_none items swarm_channel :
  (forall did, ~ In (did, swarm_channel) items) ->
  find_discord_id items swarm_channel = None.
Proof.
  induction items as [|[did sch] items IH]; intros H; [reflexivity|].
  cbn. unfold eqb. case_bool_decide as E.
  - subst sch. exfalso. apply (H did). now left.
  - apply IH. intros d Hd. apply (H d). now right.
Qed.

Lemma dict_get_none {V} (d : list (Z * V)) k :
  (forall v, ~ In (k, v) d) -> dict_get d k = None.
Proof.
  induction d as [|[k' v'] d IH]; intros H; [reflexivity|].
  cbn. destruct (Z.eqb_spec k' k) as [->|].
  - exfalso. apply (H v'). now left.
  - apply IH. intros v Hv. apply (H v). now right.
Qed.

(** [on_ready] bridges configured channels only. *)
Lemma dict_set_in {V} (d : list (Z * V)) k v k0 v0 :
  In (k0, v0) (dict_set d k v) -> In (k0, v0) d \/ (k0, v0) = (k, v).
Proof.
  induction d as [|[k' v'] d IH]; cbn.
  - intros [E|[]]. right. now symmetry.
  - destruct (k' =? k)%Z; cbn.
    + intros [E|Hin]; [right; now symmetry | left; now right].
    + intros [E|Hin]; [left; now left|].
      destruct (IH Hin) as [?|?]; [left; now right | now right].
Qed.

Lemma bridge_all_in items : forall b k v,
  In (k, v) (bridged_channels (bridge_all items b)) ->
  In (k, v) (bridged_channels b) \/ In (k, v) items.
Proof.
  induction items as [|[did sch] items IH]; intros b k v; cbn.
  - now left.
  - intros Hin. apply IH in Hin as [Hin|Hin]; [|right; now right].
    destruct (get_channel (discord b) did); [|now left].
    cbn in Hin. apply dict_set_in in Hin as [?|E]; [now left|].
    right. left. now symmetry.
Qed.
End WithWorld.

(** C8. A message on a channel that the bridge has not bridged is dropped
    in both directions: a SwarmIRC message whose target, less its first
    character, is the name of no bridged channel, and a Discord message
    whose channel id is the key of no bridged channel, each make their
    handler return normally with the bridge exactly as it was, so nothing
    is posted to Discord and nothing is sent to SwarmIRC. A channel absent
    from [CHANNEL_MAPPINGS] is never bridged by [on_ready]. *)
Theorem unmapped_channel_dropped {W} (b : DiscordSwarmIRCBridge W) :
  (forall sender target content,
      (forall did, ~ In (did, from1 target) (bridged_channels b)) ->
      on_swarm_message sender target content b = (Ok tt, b))
  /\ (forall m,
        (forall sch, ~ In (channel_id m, sch) (bridged_channels b)) ->
        on_message m b = (Ok tt, b))
  /\ (forall d url api_key k v,
        b = init d url api_key ->
        In (k, v) (bridged_channels (snd (on_ready b))) ->
        In (k, v) CHANNEL_MAPPINGS).
Proof.
  split; [|split].
  - intros sender target content H. unfold on_swarm_message, bind, get, ret.
    destruct (negb (startswith target [HASH])); [reflexivity|].
    case_bool_decide; [reflexivity|].
    destruct (startswith content (s "[Discord/")); [reflexivity|].
    now rewrite find_discord_id_none.
  - intros m H. unfold on_message, bind, get, ret.
    destruct (author_bot m || negb (guild m)); [reflexivity|].
    now rewrite dict_get_none.
  - intros d url api_key k v -> Hin. unfold on_ready, modify in Hin.
    cbn [snd] in Hin. apply bridge_all_in in Hin as [[]|Hin]. exact Hin.
Qed.

Lemma unmapped_channel_dropped_witness :
  on_swarm_message (s "alice") (s "#random") (s "hi") running_bridge
  = (Ok tt, running_bridge)
  /\ on_message elsewhere running_bridge = (Ok tt, running_bridge).
Proof.
  pose proof (unmapped_channel_dropped running_bridge) as (Hs & Hd & _).
  split.
  - apply Hs. intros did [H|[H|[H|[]]]]; discriminate H.
  - apply Hd. intros sch [H|[H|[H|[]]]]; discriminate H.
Defined.

(** A handler that only builds a coroutine changes nothing. *)
Lemma unawaited_inert {W S} parameters (body : list str -> M S unit)
    (args : list str) (w : W) :
  fst (unawaited parameters body args w) = w.
Proof. unfold unawaited. now destruct (bind_arguments parameters args). Qed.

Lemma run_all_inert {W} (hs : list (Client.handler W)) args (w : W) :
  Forall (fun h => forall a w', fst (h a w') = w') hs ->
  run_all hs args w = w.
Proof.
  unfold run_all. induction 1 as [|h hs Hh _ IH]; [reflexivity|].
  cbn [fold_left]. now rewrite Hh.
Qed.

Lemma bridge_registries_inert {W} (url api_key : str) (k : Client.kind) :
  Forall (fun h : Client.handler W => forall a w', fst (h a w') = w')
    (Client._handlers
       (setup_swarmirc_handlers (Client.init url api_key)) k).
Proof.
  destruct k; cbn; repeat constructor; intros; apply unawaited_inert.
Qed.

(** Dispatching a line on a client whose handlers change nothing
    returns and leaves the handlers' world as it was. *)
Lemma dispatch_inert {W} (c : Client.SwarmIRC W) (line : str)
    (e : @Client.Env W) :
  (forall k, Forall (fun h : Client.handler W =>
                       forall a w', fst (h a w') = w')
               (Client._handlers c k)) ->
  exists e',
    Client._parse_line c line e = (Ok tt, e')
    /\ Client.world e' = Client.world e.
Proof.
  intros Hc. destruct (decide (strip line = [])) as [Hb|Hb].
  - rewrite DispatchFacts.parse_line_blank by assumption. now exists e.
  - rewrite DispatchFacts.parse_line_spec by assumption.
    eexists. split; [reflexivity|]. cbn zeta.
    destruct (event_of (strip line)) as [[k args]|]; cbn [Client.world];
      now rewrite !run_all_inert by apply Hc.
Qed.

Lemma bridge_dispatch_inert {W} (d : Discord) (url api_key line : str)
    (e : @Client.Env W) :
  exists e',
    Client._parse_line (swarmirc (init d url api_key)) line e = (Ok tt, e')
    /\ Client.world e' = Client.world e.
Proof.
  apply dispatch_inert. intros k. apply bridge_registries_inert.
Qed.

Lemma message_event_fails {W} (b : DiscordSwarmIRCBridge W) (m : Message) :
  on_message_closure [a_message m] b = (Raise TypeError, b)
  /\ message_event m b = (Ok tt, b).
Proof. split; reflexivity. Qed.

(** C1. The relay does not send a message back to the side it came from.
    A SwarmIRC message whose body starts with the tag put on Discord
    messages, [[Discord/name] ], makes [on_swarm_message] return with the
    bridge as it was, so nothing is posted to Discord; and the handler as
    registered is not even run: dispatching any line on the bridge's
    client leaves what its handlers can reach as it was. A Discord message
    that is the bridge's own post coming back is written by a bot and
    makes [on_message] return with the bridge as it was; and as discord.py
    calls the handler, every message event, whatever its text and so also
    one that carries the tag [**[SwarmIRC/sender]** ], leaves the bridge as
    it was: nothing is sent to SwarmIRC. *)
Theorem loop_guards {W} (b : DiscordSwarmIRCBridge W) :
  (forall sender target author body,
      on_swarm_message sender target
        (s "[Discord/" ++ author ++ s "] " ++ body) b
      = (Ok tt, b))
  /\ (forall m, author_bot m = true -> on_message m b = (Ok tt, b))
  /\ (forall m, message_event m b = (Ok tt, b))
  /\ (forall (d : Discord) (url api_key line : str) (e : @Client.Env W),
        exists e',
          Client._parse_line (swarmirc (init d url api_key)) line e
          = (Ok tt, e')
          /\ Client.world e' = Client.world e).
Proof.
  split; [|split; [|split]].
  - intros sender target author body. unfold on_swarm_message, bind, get, ret.
    destruct (negb (startswith target [HASH])); [reflexivity|].
    case_bool_decide; reflexivity.
  - intros m H. unfold on_message. now rewrite H.
  - intros m. apply message_event_fails.
  - intros d url api_key line e. apply bridge_dispatch_inert.
Qed.

Lemma loop_guards_witness :
  on_message echoed_post running_bridge = (Ok tt, running_bridge)
  /\ message_event typed_tag running_bridge = (Ok tt, running_bridge).
Proof.
  pose proof (loop_guards running_bridge) as (_ & Hbot & Hevent & _).
  split; [exact (Hbot echoed_post eq_refl) | exact (Hevent typed_tag)].
Defined.

End RelayProps.

(** ** Stripping and framing *)

Module FramingProps.
Import Py Re Eff Transport Client Grammar ReFacts DispatchFacts Examples
  Lifecycle.

Lemma heads_with_app (p : char -> bool) (a b : str) :
  a <> [] -> heads_with p (a ++ b) = heads_with p a.
Proof. destruct a; [contradiction | reflexivity]. Qed.

Lemma drop_while_clean (p : char -> bool) (x : str) :
  heads_with p x = false -> drop_while p x = x.
Proof. destruct x as [|c x]; cbn; [reflexivity|]. now intros ->. Qed.

Lemma strip_ends_clean (x : str) : ends_clean (strip x).
Proof.
  unfold ends_clean, strip. rewrite rev_involutive. apply drop_while_head.
Qed.

Lemma strip_head_clean (x : str) : heads_with isspace (strip x) = false.
Proof.
  unfold strip.
  pose proof (take_drop_while isspace (rev (drop_while isspace x))) as E.
  apply (f_equal (@rev char)) in E. rewrite rev_app_distr, rev_involutive in E.
  destruct (rev (drop_while isspace (rev (drop_while isspace x))))
    as [|c y] eqn:Ey; [reflexivity|].
  pose proof (drop_while_head isspace x) as H. rewrite <- E in H. exact H.
Qed.

Lemma strip_clean (x : str) :
  heads_with isspace x = false -> ends_clean x -> strip x = x.
Proof.
  intros Hh He. unfold strip. rewrite (drop_while_clean _ _ Hh).
  rewrite (drop_while_clean _ _ He). apply rev_involutive.
Qed.

(** Stripping a string that begins with a clean, non-empty part strips
    the end of the rest only. *)
Lemma strip_app (a b : str) :
  a <> [] -> heads_with isspace a = false -> ends_clean a ->
  strip (a ++ b) = a ++ rev (drop_while isspace (rev b)).
Proof.
  intros Hne Hh He. unfold strip.
  rewrite (drop_while_clean isspace (a ++ b))
    by now rewrite heads_with_app.
  rewrite rev_app_distr.
  assert (E : drop_while isspace (rev b ++ rev a)
              = drop_while isspace (rev b) ++ rev a).
  { induction (rev b) as [|c y IH]; cbn.
    - now apply drop_while_clean.
    - destruct (isspace c); [exact IH | reflexivity]. }
  rewrite E, rev_app_distr. now rewrite rev_involutive.
Qed.

(** [split_crlf] one character at a time. *)
Lemma split_crlf_cons (cur : str) (c : char) (x : str) :
  split_crlf cur (c :: x) =
  if (c =? CR)%N && heads_with (N.eqb NL) x
  then cur :: split_crlf [] (tail x)
  else split_crlf (cur ++ [c]) x.
Proof.
  destruct c as [|p]; [reflexivity|].
  do 4 (try destruct p as [p|p|]); try reflexivity.
  destruct x as [|d x]; [reflexivity|].
  destruct d as [|q]; [reflexivity|].
  do 4 (try destruct q as [q|q|]); reflexivity.
Qed.

Lemma split_crlf_join_aux (n : nat) : forall cur x,
  length x <= n ->
  split_crlf cur x <> []
  /\ join_with CRLF (split_crlf cur x) = cur ++ x.
Proof.
  induction n as [|n IH]; intros cur x Hn.
  - destruct x; [cbn; rewrite app_nil_r; now split | cbn in Hn; lia].
  - destruct x as [|c x]; [cbn; rewrite app_nil_r; now split|].
    cbn in Hn. rewrite split_crlf_cons.
    destruct ((c =? CR)%N && heads_with (N.eqb NL) x) eqn:E.
    + apply andb_true_iff in E as [Ec Ex].
      apply N.eqb_eq in Ec as ->.
      destruct x as [|d x]; [discriminate Ex|].
      cbn [heads_with] in Ex. cbn [length] in Hn.
      apply N.eqb_eq in Ex as <-. cbn [tail].
      destruct (IH [] x ltac:(lia)) as [Hne Hj].
      split; [discriminate|].
      destruct (split_crlf [] x) as [|q qs]; [contradiction|].
      cbn [join_with]. cbn [join_with] in Hj. rewrite Hj. reflexivity.
    + destruct (IH (cur ++ [c]) x ltac:(lia)) as [Hne Hj].
      split; [exact Hne|]. rewrite Hj. now rewrite <- app_assoc.
Qed.

(** X1. The framing of [listen] loses nothing: the pieces a payload is
    split into, put back together with CR LF between them, are the
    stripped payload. *)
Theorem framing_round_trip (payload : str) :
  join_with CRLF (split_crlf [] (strip payload)) = strip payload.
Proof. apply (split_crlf_join_aux (length (strip payload))). lia. Qed.

Section WithWorld.
Context {W : Type}.
Implicit Types (c : SwarmIRC W) (e : @Env W).

Lemma parse_line_returns c line e :
  exists e', _parse_line c line e = (Ok tt, e')
             /\ exists added, calls e' = calls e ++ added.
Proof.
  destruct (decide (strip line = [])) as [Hb|Hb].
  - rewrite parse_line_blank by assumption. exists e. split; [reflexivity|].
    exists []. now rewrite app_nil_r.
  - rewrite parse_line_spec by assumption. eexists. split; [reflexivity|].
    cbn zeta. destruct (event_of (strip line)) as [[k args]|]; cbn [calls];
      eexists; reflexivity.
Qed.

Lemma invocations_kind c k args :
  Forall (fun x => fst (fst x) = k) (invocations c k args).
Proof. unfold invocations. apply Forall_map, Forall_forall. reflexivity. Qed.

Lemma filter_raw_all (cs : list (kind * nat * list str)) :
  Forall (fun x => fst (fst x) = raw) cs ->
  filter (fun x => fst (fst x) = raw) cs = cs.
Proof.
  induction 1 as [|x cs Hx _ IH]; [reflexivity|].
  rewrite filter_cons_True by exact Hx. now rewrite IH.
Qed.

Lemma filter_raw_none (cs : list (kind * nat * list str)) k :
  k <> raw -> Forall (fun x => fst (fst x) = k) cs ->
  filter (fun x => fst (fst x) = raw) cs = [].
Proof.
  intros Hk. induction 1 as [|x cs Hx _ IH]; [reflexivity|].
  rewrite filter_cons_False by congruence. exact IH.
Qed.

(** The raw calls that dispatching one line adds. *)
Lemma parse_line_raw_calls c line e :
  exists e' added,
    _parse_line c line e = (Ok tt, e')
    /\ calls e' = calls e ++ added
    /\ filter (fun x => fst (fst x) = raw) added
       = if bool_decide (strip line = []) then []
         else invocations c raw [strip line].
Proof.
  destruct (decide (strip line = [])) as [Hb|Hb].
  - rewrite parse_line_blank, bool_decide_eq_true_2 by assumption.
    exists e, []. rewrite app_nil_r. auto.
  - rewrite parse_line_spec, bool_decide_eq_false_2 by assumption.
    cbn zeta. destruct (event_of (strip line)) as [[k args]|] eqn:Ev.
    + eexists _, (invocations c raw [strip line] ++ invocations c k args).
      split; [reflexivity|]. split; [reflexivity|].
      rewrite filter_app, filter_raw_all by apply invocations_kind.
      rewrite (filter_raw_none _ k), app_nil_r;
        [reflexivity | | apply invocations_kind].
      apply event_of_kind in Ev. cbn in Ev.
      destruct Ev as [<-|[<-|[<-|[<-|[<-|[]]]]]]; discriminate.
    + eexists _, (invocations c raw [strip line]).
      split; [reflexivity|]. split; [reflexivity|].
      apply filter_raw_all, invocations_kind.
Qed.

Lemma parse_lines_raw_calls c lines : forall e,
  exists e' added,
    parse_lines c lines e = (Ok tt, e')
    /\ calls e' = calls e ++ added
    /\ filter (fun x => fst (fst x) = raw) added
       = flat_map (fun line => invocations c raw [strip line])
           (filter (fun line => strip line <> []) lines).
Proof.
  induction lines as [|line lines IH]; intros e.
  - exists e, []. cbn. rewrite app_nil_r. auto.
  - cbn [parse_lines]. unfold bind.
    destruct (parse_line_raw_calls c line e) as (e1 & a1 & -> & E1 & F1).
    destruct (IH e1) as (e2 & a2 & -> & E2 & F2).
    exists e2, (a1 ++ a2). split; [reflexivity|].
    split; [now rewrite E2, E1, app_assoc|].
    rewrite filter_app, F1, F2.
    destruct (decide (strip line = [])) as [Hb|Hb].
    + rewrite bool_decide_eq_true_2 by assumption.
      now rewrite filter_cons_False by tauto.
    + rewrite bool_decide_eq_false_2 by assumption.
      now rewrite filter_cons_True by assumption.
Qed.
End WithWorld.

(** X2. Dispatching a payload never raises, whatever the handlers do, and
    the raw handlers are called on exactly the non-blank lines of the
    payload, stripped, in the order of the lines, each handler once per
    line. *)
Theorem raw_sees_every_line {W} (c : SwarmIRC W) (payload : str)
    (e : @Env W) :
  exists e' added,
    on_payload c payload e = (Ok tt, e')
    /\ calls e' = calls e ++ added
    /\ filter (fun x => fst (fst x) = raw) added
       = flat_map (fun line => invocations c raw [strip line])
           (filter (fun line => strip line <> [])
              (split_crlf [] (strip payload))).
Proof. apply parse_lines_raw_calls. Qed.

(** X3. What a raw handler is given is never empty and never begins or
    ends with whitespace: any call of the raw registry that [_parse_line]
    adds has one argument, the stripped line. *)
Theorem raw_argument_trimmed {W} (c : SwarmIRC W) (line : str) (e : @Env W)
    (i : nat) (args : list str) :
  In (raw, i, args)
    (drop (length (calls e)) (calls (snd (_parse_line c line e)))) ->
  exists l,
    args = [l] /\ l = strip line /\ l <> []
    /\ heads_with isspace l = false /\ ends_clean l.
Proof.
  destruct (decide (strip line = [])) as [Hb|Hb].
  - rewrite parse_line_blank by assumption. cbn [snd].
    rewrite drop_all. intros [].
  - rewrite parse_line_spec by assumption. cbn zeta. cbn [snd].
    assert (Hraw : In (raw, i, args) (invocations c raw [strip line]) ->
                   args = [strip line]).
    { unfold invocations. rewrite in_map_iff. now intros (j & [= _ <-] & _). }
    intros Hin. exists (strip line).
    assert (args = [strip line]) as ->.
    { destruct (event_of (strip line)) as [[k a]|] eqn:Ev; cbn [calls] in Hin;
        rewrite drop_app_length in Hin.
      - apply in_app_or in Hin as [Hin|Hin]; [now apply Hraw|].
        exfalso. apply event_of_kind in Ev.
        unfold invocations in Hin. apply in_map_iff in Hin as (j & [= -> _ _] & _).
        cbn in Ev. intuition discriminate.
      - now apply Hraw. }
    repeat split; [exact Hb | apply strip_head_clean | apply strip_ends_clean].
Qed.

Lemma raw_argument_trimmed_witness :
  exists l,
    [s "PING"] = [l] /\ l = strip (s "  PING ") /\ l <> []
    /\ heads_with isspace l = false /\ ends_clean l.
Proof.
  apply (raw_argument_trimmed listener (s "  PING ") quiet 0 [s "PING"]).
  left. reflexivity.
Defined.

End FramingProps.

(** ** The other commands, and the wire there and back *)

Module WireProps.
Import Py Re Eff Transport Client Grammar ReFacts DispatchFacts Examples
  Lifecycle FramingProps ActionProps.

Lemma token_one_line (x : str) : token x -> one_line x.
Proof.
  intros [_ H]. eapply Forall_impl; [exact H|]. cbn. intros c Hc.
  destruct (N.eqb_spec c NL) as [->|]; [discriminate Hc | reflexivity].
Qed.

Lemma first_line_app (a b : str) :
  one_line a -> first_line (a ++ b) = a ++ first_line b.
Proof.
  induction 1 as [|c a Hc _ IH]; [reflexivity|].
  cbn. unfold first_line in IH. now rewrite Hc, IH.
Qed.

Lemma first_line_id (x : str) : one_line x -> first_line x = x.
Proof.
  intros H. rewrite <- (app_nil_r x) at 1.
  rewrite first_line_app by assumption. now rewrite app_nil_r.
Qed.

Lemma first_line_head (p : char -> bool) (x : str) :
  heads_with p x = false -> heads_with p (first_line x) = false.
Proof.
  destruct x as [|c x]; [reflexivity|]. cbn.
  destruct (negb (c =? NL)%N); [trivial | reflexivity].
Qed.

Lemma split_first_clean (sep : char) (x : str) :
  ~ In sep x -> split_first sep x = x.
Proof.
  unfold split_first.
  induction x as [|c x IH]; [reflexivity|]. intros H. cbn.
  destruct (N.eqb_spec c sep) as [->|]; [exfalso; apply H; now left|].
  cbn. rewrite IH; [reflexivity|]. intros Hin. apply H. now right.
Qed.

Lemma split_first_spec (sep : char) (x : str) :
  ~ In sep (split_first sep x)
  /\ (x = split_first sep x
      \/ exists more, x = split_first sep x ++ sep :: more).
Proof.
  unfold split_first.
  induction x as [|c x [IHn IHs]]; cbn.
  - split; [tauto | now left].
  - destruct (N.eqb_spec c sep) as [->|Hc]; cbn.
    + split; [tauto|]. right. now exists x.
    + split; [intros [E|Hin]; [congruence | tauto]|].
      destruct IHs as [E|[more E]].
      * left. now rewrite <- E.
      * right. exists more. now rewrite <- E.
Qed.

Lemma token_re_split (x : str) :
  re_match TOKEN_RE x =
  match run NonSpace x with
  | Some (a, _) => Some [a]
  | None => None
  end.
Proof.
  unfold re_match, TOKEN_RE. destruct x as [|c x]; [reflexivity|].
  cbn [rx run]. destruct (cmatch NonSpace c); [|reflexivity].
  rewrite star_greedy by (eexists; reflexivity).
  cbn [app]. do 2 f_equal.
  rewrite <- (take_drop_while (cmatch NonSpace) x) at 1 3.
  apply (take_consumed (c :: take_while (cmatch NonSpace) x)).
Qed.

Lemma framed_nonblank l prefix command params :
  framed l prefix command params -> l <> [].
Proof. intros (? & ? & -> & _). discriminate. Qed.

Lemma join_event l prefix params :
  framed l prefix (s "JOIN") params ->
  event_of l
  = Some (join_, [split_first BANG prefix; strip (first_line params)]).
Proof.
  intros Hf. unfold event_of.
  now rewrite line_re_split, (framed_split _ _ _ _ Hf).
Qed.

Lemma part_event l prefix tok rest :
  framed l prefix (s "PART") (tok ++ rest) ->
  token tok -> heads_with (cmatch NonSpace) rest = false ->
  event_of l = Some (part_, [split_first BANG prefix; tok]).
Proof.
  intros Hf Ht Hr. unfold event_of.
  rewrite line_re_split, (framed_split _ _ _ _ Hf).
  cbn [group Nat.sub nth].
  rewrite first_line_app by now apply token_one_line.
  rewrite token_re_split, run_token by (assumption || now apply first_line_head).
  reflexivity.
Qed.

Lemma query_event l prefix params tok body :
  framed l prefix (s "QUERY") params ->
  trailing (first_line params) tok body ->
  event_of l = Some (query_, [split_first BANG prefix; tok; body]).
Proof.
  intros Hf Ht. unfold event_of.
  rewrite line_re_split, (framed_split _ _ _ _ Hf).
  cbn [group Nat.sub nth].
  now rewrite params_re_split, (trailing_split _ _ _ Ht).
Qed.

Lemma cmd_event l prefix params tok body :
  framed l prefix (s "CMD") params ->
  trailing (first_line params) tok body ->
  event_of l = Some (cmd, [split_first BANG prefix; tok; body]).
Proof.
  intros Hf Ht. unfold event_of.
  rewrite line_re_split, (framed_split _ _ _ _ Hf).
  cbn [group Nat.sub nth].
  now rewrite params_re_split, (trailing_split _ _ _ Ht).
Qed.

Lemma parse_line_of_event {W} (c : SwarmIRC W) line k args (e : @Env W) :
  strip line <> [] ->
  event_of (strip line) = Some (k, args) ->
  _parse_line c line e =
  (Ok tt,
   {| world := run_all (_handlers c k) args
                 (run_all (_handlers c raw) [strip line] (world e));
      calls := calls e ++ invocations c raw [strip line]
               ++ invocations c k args |}).
Proof.
  intros Hb Ev. rewrite parse_line_spec by assumption. cbn zeta.
  now rewrite Ev.
Qed.

Lemma event_of_sound l k args :
  event_of l = Some (k, args) ->
  exists prefix command params rest,
    framed l prefix command params
    /\ In command known_commands
    /\ args = split_first BANG prefix :: rest.
Proof.
  unfold event_of. rewrite line_re_split.
  destruct (split_line l) as [m|] eqn:E; [|discriminate].
  apply split_framed in E as (p & c0 & q & -> & Hf).
  cbn [group Nat.sub nth]. unfold eqb.
  repeat (case_bool_decide;
          [subst c0;
           try destruct (re_match PARAMS_RE (first_line q));
           try discriminate;
           intros [= <- <-]; exists p; eexists _, q, _;
           (split; [exact Hf|]);
           (split; [unfold known_commands; cbn [In];
                    repeat (first [left; reflexivity | right])
                   | reflexivity])
          |]).
  discriminate.
Qed.

Lemma token_lit (x : str) :
  x <> [] -> forallb (fun c => negb (isspace c)) x = true -> token x.
Proof.
  intros Hne H. split; [exact Hne|].
  apply Forall_forall. intros c Hc.
  apply list_elem_of_In in Hc.
  rewrite forallb_forall in H. specialize (H c Hc). now destruct (isspace c).
Qed.

(** X4. A JOIN line gives the join handlers the sender (the prefix up to
    its first [!]) and, as channel, the rest of the line trimmed, after the
    raw handlers and nothing else. *)
Theorem join_line_dispatch {W} (c : SwarmIRC W) (line prefix params : str)
    (e : @Env W) :
  framed (strip line) prefix (s "JOIN") params ->
  let args := [split_first BANG prefix; strip (first_line params)] in
  _parse_line c line e =
  (Ok tt,
   {| world := run_all (_handlers c join_) args
                 (run_all (_handlers c raw) [strip line] (world e));
      calls := calls e ++ invocations c raw [strip line]
               ++ invocations c join_ args |}).
Proof.
  intros Hf args. apply parse_line_of_event.
  - eapply framed_nonblank, Hf.
  - now apply join_event.
Qed.

Lemma join_line_dispatch_witness :
  calls (snd (_parse_line (on_join (noting (s "j")) fresh)
                (s ":alice!u@h JOIN #general  ") quiet))
  = [(join_, 0, [s "alice"; s "#general"])].
Proof.
  rewrite (join_line_dispatch (on_join (noting (s "j")) fresh)
             (s ":alice!u@h JOIN #general  ") (s "alice!u@h")
             (s "#general") quiet).
  - reflexivity.
  - exists [SP], [SP]. repeat split; try discriminate; repeat constructor.
Defined.

(** X5. A PART line gives the part handlers the sender and the first
    whitespace-delimited token of what follows the command; a reason after
    the channel is not passed on. *)
Theorem part_line_dispatch {W} (c : SwarmIRC W)
    (line prefix tok rest : str) (e : @Env W) :
  framed (strip line) prefix (s "PART") (tok ++ rest) ->
  token tok ->
  heads_with (cmatch NonSpace) rest = false ->
  let args := [split_first BANG prefix; tok] in
  _parse_line c line e =
  (Ok tt,
   {| world := run_all (_handlers c part_) args
                 (run_all (_handlers c raw) [strip line] (world e));
      calls := calls e ++ invocations c raw [strip line]
               ++ invocations c part_ args |}).
Proof.
  intros Hf Ht Hr args. apply parse_line_of_event.
  - eapply framed_nonblank, Hf.
  - now apply (part_event _ _ _ rest).
Qed.

Lemma part_line_dispatch_witness :
  calls (snd (_parse_line (on_part (noting (s "p")) fresh)
                (s ":alice!u@h PART #general :gone fishing") quiet))
  = [(part_, 0, [s "alice"; s "#general"])].
Proof.
  rewrite (part_line_dispatch (on_part (noting (s "p")) fresh)
             (s ":alice!u@h PART #general :gone fishing") (s "alice!u@h")
             (s "#general") (s " :gone fishing") quiet).
  - reflexivity.
  - exists [SP], [SP]. repeat split; try discriminate; repeat constructor.
  - apply token_lit; [discriminate | reflexivity].
  - reflexivity.
Defined.

(** X6. QUERY and CMD lines are read like PRIVMSG: the handlers of the
    query, respectively cmd, registry get the sender, the token before the
    colon and everything after the colon, up to the first line feed of the
    line. *)
Theorem query_cmd_dispatch {W} (c : SwarmIRC W)
    (line prefix params tok body : str) (e : @Env W) :
  trailing (first_line params) tok body ->
  let args := [split_first BANG prefix; tok; body] in
  (framed (strip line) prefix (s "QUERY") params ->
   _parse_line c line e =
   (Ok tt,
    {| world := run_all (_handlers c query_) args
                  (run_all (_handlers c raw) [strip line] (world e));
       calls := calls e ++ invocations c raw [strip line]
                ++ invocations c query_ args |}))
  /\ (framed (strip line) prefix (s "CMD") params ->
      _parse_line c line e =
      (Ok tt,
       {| world := run_all (_handlers c cmd) args
                     (run_all (_handlers c raw) [strip line] (world e));
          calls := calls e ++ invocations c raw [strip line]
                   ++ invocations c cmd args |})).
Proof.
  intros Ht args. split; intros Hf; apply parse_line_of_event;
    try (eapply framed_nonblank, Hf).
  - now apply (query_event _ _ params).
  - now apply (cmd_event _ _ params).
Qed.

Lemma query_cmd_dispatch_witness :
  calls (snd (_parse_line (on_query (noting (s "q")) fresh)
                (s ":bob QUERY CAPABILITIES :json: {}") quiet))
  = [(query_, 0, [s "bob"; s "CAPABILITIES"; s "json: {}"])]
  /\ calls (snd (_parse_line (on_cmd (noting (s "c")) fresh)
                   (s ":bob CMD CAPABILITIES :json: {}") quiet))
     = [(cmd, 0, [s "bob"; s "CAPABILITIES"; s "json: {}"])].
Proof.
  assert (Ht : trailing (first_line (s "CAPABILITIES :json: {}"))
                 (s "CAPABILITIES") (s "json: {}")).
  { exists [SP]. repeat split; try discriminate.
    apply token_lit; [discriminate | reflexivity]. constructor; auto. }
  split.
  - rewrite (proj1 (query_cmd_dispatch (on_query (noting (s "q")) fresh)
                      (s ":bob QUERY CAPABILITIES :json: {}") (s "bob")
                      (s "CAPABILITIES :json: {}") (s "CAPABILITIES")
                      (s "json: {}") quiet Ht)); [reflexivity|].
    exists [SP], [SP]. repeat split; try discriminate; repeat constructor.
  - rewrite (proj2 (query_cmd_dispatch (on_cmd (noting (s "c")) fresh)
                      (s ":bob CMD CAPABILITIES :json: {}") (s "bob")
                      (s "CAPABILITIES :json: {}") (s "CAPABILITIES")
                      (s "json: {}") quiet Ht)); [reflexivity|].
    exists [SP], [SP]. repeat split; try discriminate; repeat constructor.
Defined.

(** X7. Structured handlers are only ever called for a framed line whose
    command is one of the five, and what they get as sender is the part
    of the prefix before its first [!]: it holds no [!]. *)
Theorem sender_before_bang {W} (c : SwarmIRC W) (line : str) (e : @Env W)
    (k : kind) (i : nat) (args : list str) :
  In (k, i, args)
    (drop (length (calls e)) (calls (snd (_parse_line c line e)))) ->
  k <> raw ->
  exists sender rest prefix command params,
    args = sender :: rest
    /\ ~ In BANG sender
    /\ framed (strip line) prefix command params
    /\ In command known_commands
    /\ (prefix = sender \/ exists more, prefix = sender ++ BANG :: more).
Proof.
  destruct (decide (strip line = [])) as [Hb|Hb].
  - rewrite parse_line_blank by assumption. cbn [snd].
    rewrite drop_all. intros [].
  - rewrite parse_line_spec by assumption. cbn zeta. cbn [snd].
    intros Hin Hk.
    destruct (event_of (strip line)) as [[k' a]|] eqn:Ev; cbn [calls] in Hin;
      rewrite drop_app_length in Hin.
    + apply in_app_or in Hin as [Hin|Hin];
        unfold invocations in Hin;
        apply in_map_iff in Hin as (j & [= <- _ <-] & _); [congruence|].
      apply event_of_sound in Ev as (p & c0 & q & rest & Hf & Hc & ->).
      destruct (split_first_spec BANG p) as [Hn Hs].
      exists (split_first BANG p), rest, p, c0, q. repeat split; auto.
    + unfold invocations in Hin.
      apply in_map_iff in Hin as (j & [= <- _ _] & _). congruence.
Qed.

Lemma sender_before_bang_witness :
  exists sender rest prefix command params,
    [s "alice"; s "#general"; s "hello world"] = sender :: rest
    /\ ~ In BANG sender
    /\ framed (strip privmsg_line) prefix command params
    /\ In command known_commands
    /\ (prefix = sender \/ exists more, prefix = sender ++ BANG :: more).
Proof.
  apply (sender_before_bang listener privmsg_line quiet message 1
           [s "alice"; s "#general"; s "hello world"]).
  - right. right. left. reflexivity.
  - discriminate.
Defined.

Lemma ends_clean_app (a b : str) :
  b <> [] -> ends_clean b -> ends_clean (a ++ b).
Proof.
  intros Hne Hb. unfold ends_clean in *. rewrite rev_app_distr.
  rewrite heads_with_app; [exact Hb|].
  intros E. apply Hne. apply (f_equal (@rev char)) in E.
  now rewrite rev_involutive in E.
Qed.

Lemma ends_clean_colon (x : str) : ends_clean x -> ends_clean (COLON :: x).
Proof.
  intros H. destruct x as [|c x]; [reflexivity|].
  now apply (ends_clean_app [COLON] (c :: x)).
Qed.

Lemma token_clean (x : str) :
  token x -> heads_with isspace x = false /\ ends_clean x.
Proof.
  intros [Hne H]. split.
  - destruct x as [|c x]; [contradiction|]. now inversion H.
  - unfold ends_clean. apply Forall_rev in H.
    destruct (rev x) as [|c y]; [reflexivity|]. now inversion H.
Qed.

Lemma token_hashed (ch : str) : token ch -> token (hashed ch).
Proof.
  intros [Hne H]. unfold hashed.
  destruct (startswith ch [HASH]); split; try assumption; try discriminate.
  constructor; [reflexivity | assumption].
Qed.

Lemma one_line_app (a b : str) : one_line a -> one_line b -> one_line (a ++ b).
Proof. apply Forall_app_2. Qed.

(** A PRIVMSG line relayed under a nick, as a client's parser reads
    it. *)
Lemma relayed_privmsg_dispatch {V} (peer : SwarmIRC V) (e : @Env V)
    (nick target msg : str) :
  token nick -> ~ In BANG nick -> token target ->
  one_line msg -> ends_clean msg ->
  _parse_line peer
    (relayed nick (s "PRIVMSG " ++ target ++ s " :" ++ msg)) e =
  (Ok tt,
   {| world := run_all (_handlers peer message) [nick; target; msg]
                 (run_all (_handlers peer raw)
                    [relayed nick
                       (s "PRIVMSG " ++ target ++ s " :" ++ msg)]
                    (world e));
      calls := calls e
               ++ invocations peer raw
                    [relayed nick
                       (s "PRIVMSG " ++ target ++ s " :" ++ msg)]
               ++ invocations peer message [nick; target; msg] |}).
Proof.
  intros Hn Hbang Ht Hm He.
  set (line := relayed nick (s "PRIVMSG " ++ target ++ s " :" ++ msg)).
  assert (Hs : strip line = line).
  { apply strip_clean; [reflexivity|].
    apply (ends_clean_app (COLON :: nick)); [discriminate|].
    apply (ends_clean_app (SP :: s "PRIVMSG "));
      [destruct target; discriminate|].
    apply (ends_clean_app target); [discriminate|].
    apply (ends_clean_app [SP]); [discriminate|].
    now apply ends_clean_colon. }
  assert (Ev : event_of (strip line) = Some (message, [nick; target; msg])).
  { rewrite (ParserProps.privmsg_event (strip line) nick (target ++ s " :" ++ msg)
               target msg).
    - now rewrite split_first_clean.
    - rewrite Hs. exists [SP], [SP].
      repeat split; try discriminate; try apply Hn; try apply Ht;
        try (repeat constructor).
      now apply head_token.
    - rewrite first_line_id.
      + exists [SP]. repeat split; try apply Ht; try discriminate.
        repeat constructor.
      + apply one_line_app; [now apply token_one_line|].
        apply (one_line_app (s " :")); [repeat constructor | assumption]. }
  rewrite (parse_line_of_event peer line message [nick; target; msg] e);
    [now rewrite Hs | rewrite Hs; discriminate | exact Ev].
Qed.

(** X8. What [send] puts on the wire comes back as it was sent. On an
    open connection [send target msg] appends the one line
    [PRIVMSG target :msg] to what has been sent and changes nothing else;
    and when a server relays that line under a nick, a client's message
    handlers get that nick, the target and the message, provided the nick
    and the target are single tokens, the nick holds no [!], and the
    message has no line feed and no whitespace at its end. *)
Theorem send_parse_round_trip {W V} (c : SwarmIRC W) (w : WebSocket)
    (peer : SwarmIRC V) (e : @Env V) (nick target msg : str) :
  ws c = Some w -> closed w = false ->
  token nick -> ~ In BANG nick -> token target ->
  one_line msg -> ends_clean msg ->
  send target msg c =
  (Ok tt,
   set_ws (Some {| inbox := inbox w;
                   outbox := outbox w
                             ++ [s "PRIVMSG " ++ target ++ s " :" ++ msg];
                   closed := false |}) c)
  /\ _parse_line peer
       (relayed nick (s "PRIVMSG " ++ target ++ s " :" ++ msg)) e =
     (Ok tt,
      {| world := run_all (_handlers peer message) [nick; target; msg]
                    (run_all (_handlers peer raw)
                       [relayed nick
                          (s "PRIVMSG " ++ target ++ s " :" ++ msg)]
                       (world e));
         calls := calls e
                  ++ invocations peer raw
                       [relayed nick
                          (s "PRIVMSG " ++ target ++ s " :" ++ msg)]
                  ++ invocations peer message [nick; target; msg] |}).
Proof.
  intros Hw Hc Hn Hbang Ht Hm He.
  split; [unfold send; now apply send_online|].
  now apply relayed_privmsg_dispatch.
Qed.

Lemma send_parse_round_trip_witness :
  send (s "#general") (s "hello: world") (set_ws (Some (scripted [s "PING"])) fresh) =
  (Ok tt,
   set_ws (Some {| inbox := [s "PING"];
                   outbox := [s "PRIVMSG #general :hello: world"];
                   closed := false |}) fresh)
  /\ _parse_line listener (s ":alice PRIVMSG #general :hello: world") quiet =
     (Ok tt,
      {| world := [s "raw"; s "first"; s "second"; s "third"];
         calls := invocations listener raw
                    [s ":alice PRIVMSG #general :hello: world"]
                  ++ invocations listener message
                       [s "alice"; s "#general"; s "hello: world"] |}).
Proof.
  apply (send_parse_round_trip (set_ws (Some (scripted [s "PING"])) fresh)
           (scripted [s "PING"]) listener quiet
           (s "alice") (s "#general") (s "hello: world")
           eq_refl eq_refl).
  - apply token_lit; [discriminate | reflexivity].
  - intros H. repeat (destruct H as [H|H]; [discriminate H|]). exact H.
  - apply token_lit; [discriminate | reflexivity].
  - repeat constructor.
  - reflexivity.
Defined.

Lemma join_online {W} (c : SwarmIRC W) w ch :
  ws c = Some w -> closed w = false ->
  join ch c =
  (Ok tt,
   set_channels ({[hashed ch]} ∪ channels c)
     (set_ws (Some {| inbox := inbox w;
                      outbox := outbox w ++ [s "JOIN " ++ hashed ch];
                      closed := false |}) c)).
Proof.
  intros Hw Hc. unfold join, bind, modify.
  now rewrite (send_online c w _ Hw Hc).
Qed.

Lemma part_online {W} (c : SwarmIRC W) w ch reason :
  ws c = Some w -> closed w = false ->
  part ch reason c =
  (Ok tt,
   set_channels (channels c ∖ {[hashed ch]})
     (set_ws (Some {| inbox := inbox w;
                      outbox := outbox w
                                ++ [s "PART " ++ hashed ch ++ s " :" ++ reason];
                      closed := false |}) c)).
Proof.
  intros Hw Hc. unfold part, bind, modify.
  now rewrite (send_online c w _ Hw Hc).
Qed.

(** X9. The channel a client records on [join] is the channel others are
    told. On an open connection [join ch] sends the one line [JOIN #ch]
    and adds [#ch] to [channels]; that line, relayed under the client's
    nick, gives join handlers that nick and [#ch]. [part ch reason] sends
    [PART #ch :reason] and removes [#ch] from [channels]; that line gives
    part handlers the nick and [#ch], whatever the reason text. Here [#ch]
    is [ch] with a [#] put before it unless it has one; the nick and the
    channel are single tokens and the nick holds no [!]. *)
Theorem membership_round_trip {W V} (c : SwarmIRC W) (w : WebSocket)
    (peer : SwarmIRC V) (e : @Env V) (nick ch reason : str) :
  ws c = Some w -> closed w = false ->
  token nick -> ~ In BANG nick -> token ch ->
  join ch c =
  (Ok tt,
   set_channels ({[hashed ch]} ∪ channels c)
     (set_ws (Some {| inbox := inbox w;
                      outbox := outbox w ++ [s "JOIN " ++ hashed ch];
                      closed := false |}) c))
  /\ _parse_line peer (relayed nick (s "JOIN " ++ hashed ch)) e =
     (Ok tt,
      {| world := run_all (_handlers peer join_) [nick; hashed ch]
                    (run_all (_handlers peer raw)
                       [relayed nick (s "JOIN " ++ hashed ch)] (world e));
         calls := calls e
                  ++ invocations peer raw
                       [relayed nick (s "JOIN " ++ hashed ch)]
                  ++ invocations peer join_ [nick; hashed ch] |})
  /\ part ch reason c =
     (Ok tt,
      set_channels (channels c ∖ {[hashed ch]})
        (set_ws (Some {| inbox := inbox w;
                         outbox := outbox w
                                   ++ [s "PART " ++ hashed ch
                                       ++ s " :" ++ reason];
                         closed := false |}) c))
  /\ _parse_line peer
       (relayed nick (s "PART " ++ hashed ch ++ s " :" ++ reason)) e =
     (Ok tt,
      {| world := run_all (_handlers peer part_) [nick; hashed ch]
                    (run_all (_handlers peer raw)
                       [strip (relayed nick
                                 (s "PART " ++ hashed ch
                                  ++ s " :" ++ reason))]
                       (world e));
         calls := calls e
                  ++ invocations peer raw
                       [strip (relayed nick
                                 (s "PART " ++ hashed ch
                                  ++ s " :" ++ reason))]
                  ++ invocations peer part_ [nick; hashed ch] |}).
Proof.
  intros Hw Hc Hn Hbang Hch.
  pose proof (token_hashed ch Hch) as Hh.
  destruct (token_clean _ Hh) as [Hhead Hend].
  split; [exact (join_online c w ch Hw Hc)|]. split; [|split].
  - set (line := relayed nick (s "JOIN " ++ hashed ch)).
    assert (Hs : strip line = line).
    { apply strip_clean; [reflexivity|].
      apply (ends_clean_app (COLON :: nick)); [discriminate|].
      apply (ends_clean_app (SP :: s "JOIN ")); [apply Hh | exact Hend]. }
    rewrite (parse_line_of_event peer line join_ [nick; hashed ch] e);
      [now rewrite Hs | rewrite Hs; discriminate|].
    rewrite (join_event (strip line) nick (hashed ch)).
    + rewrite split_first_clean by assumption.
      rewrite first_line_id by now apply token_one_line.
      now rewrite strip_clean.
    + rewrite Hs. exists [SP], [SP].
      repeat split; try discriminate; try apply Hn; try apply Hh;
        try (repeat constructor).
      exact Hhead.
  - exact (part_online c w ch reason Hw Hc).
  - set (line := relayed nick (s "PART " ++ hashed ch ++ s " :" ++ reason)).
    set (r := rev (drop_while isspace (rev reason))).
    assert (Hs : strip line
                 = (COLON :: nick ++ SP :: s "PART " ++ hashed ch ++ s " :")
                     ++ r).
    { unfold r. rewrite <- strip_app.
      - f_equal. unfold line, relayed. cbn [app].
        rewrite <- !app_assoc. cbn [app]. rewrite <- !app_assoc.
        reflexivity.
      - discriminate.
      - reflexivity.
      - apply (ends_clean_app (COLON :: nick)); [discriminate|].
        apply (ends_clean_app (SP :: s "PART "));
          [destruct (hashed ch); discriminate|].
        now apply (ends_clean_app (hashed ch)). }
    apply parse_line_of_event.
    + rewrite Hs. discriminate.
    + rewrite (part_event (strip line) nick (hashed ch) (s " :" ++ r));
        [now rewrite split_first_clean | | exact Hh | reflexivity].
      rewrite Hs. exists [SP], [SP].
      repeat split; try discriminate; try apply Hn;
        try (repeat constructor).
      * cbn [app]. rewrite <- !app_assoc. cbn [app].
        rewrite <- ?app_assoc. reflexivity.
      * now rewrite heads_with_app by apply Hh.
Qed.

Lemma membership_round_trip_witness :
  join (s "general") (set_ws (Some (scripted [s "PING"])) fresh) =
  (Ok tt,
   set_channels ({[s "#general"]} ∪ channels fresh)
     (set_ws (Some {| inbox := [s "PING"];
                      outbox := [s "JOIN #general"];
                      closed := false |}) fresh))
  /\ _parse_line (on_part (noting (s "p")) (on_join (noting (s "j")) fresh))
       (s ":bridge JOIN #general") quiet =
     (Ok tt,
      {| world := [s "j"];
         calls := [(join_, 0, [s "bridge"; s "#general"])] |})
  /\ part (s "general") (s "bye now ") (set_ws (Some (scripted [s "PING"])) fresh) =
     (Ok tt,
      set_channels (channels fresh ∖ {[s "#general"]})
        (set_ws (Some {| inbox := [s "PING"];
                         outbox := [s "PART #general :bye now "];
                         closed := false |}) fresh))
  /\ _parse_line (on_part (noting (s "p")) (on_join (noting (s "j")) fresh))
       (s ":bridge PART #general :bye now ") quiet =
     (Ok tt,
      {| world := [s "p"];
         calls := [(part_, 0, [s "bridge"; s "#general"])] |}).
Proof.
  apply (membership_round_trip (set_ws (Some (scripted [s "PING"])) fresh)
           (scripted [s "PING"])
           (on_part (noting (s "p")) (on_join (noting (s "j")) fresh)) quiet
           (s "bridge") (s "general") (s "bye now ") eq_refl eq_refl).
  - apply token_lit; [discriminate | reflexivity].
  - intros H. repeat (destruct H as [H|H]; [discriminate H|]). exact H.
  - apply token_lit; [discriminate | reflexivity].
Defined.

End WireProps.

(** ** Actions on a live, a closed and a missing connection *)

Module MembershipProps.
Import Py Re Eff Transport Client Grammar Examples Lifecycle ActionProps
  WireProps.

Lemma send_closed {W} (c : SwarmIRC W) w msg :
  ws c = Some w -> closed w = true ->
  _send msg c = (Raise ConnectionClosed, c).
Proof. intros H Hc. unfold _send, ws_send. now rewrite H, Hc. Qed.

(** [_send] in each of its three situations. *)
Lemma send_cases {W} (c : SwarmIRC W) msg :
  _send msg c = (Raise ConnectionClosed, c)
  \/ exists c', _send msg c = (Ok tt, c') /\ channels c' = channels c.
Proof.
  destruct (ws c) as [w|] eqn:Hw.
  - destruct (closed w) eqn:Hc.
    + left. now apply send_closed with w.
    + right. rewrite (send_online c w msg Hw Hc). eexists. split; reflexivity.
  - right. rewrite send_offline by assumption. eexists. split; reflexivity.
Qed.

Lemma startswith_hashed ch : startswith (hashed ch) [HASH] = true.
Proof.
  unfold hashed. destruct (startswith ch [HASH]) eqn:E; [exact E | reflexivity].
Qed.

Lemma hashed_idem ch : hashed (hashed ch) = hashed ch.
Proof. unfold hashed at 1. now rewrite startswith_hashed. Qed.

Lemma join_channels {W} (c : SwarmIRC W) ch :
  channels (snd (join ch c)) = channels c
  \/ channels (snd (join ch c)) = {[hashed ch]} ∪ channels c.
Proof.
  unfold join, bind, modify.
  destruct (send_cases c (s "JOIN " ++ hashed ch)) as [->|(c' & -> & E)].
  - now left.
  - right. cbn. now rewrite E.
Qed.

Lemma part_channels {W} (c : SwarmIRC W) ch reason :
  channels (snd (part ch reason c)) = channels c
  \/ channels (snd (part ch reason c)) = channels c ∖ {[hashed ch]}.
Proof.
  unfold part, bind, modify.
  destruct (send_cases c (s "PART " ++ hashed ch ++ s " :" ++ reason))
    as [->|(c' & -> & E)].
  - now left.
  - right. cbn. now rewrite E.
Qed.

Lemma join_keeps_hashed {W} (c : SwarmIRC W) ch :
  all_hashed (channels c) -> all_hashed (channels (snd (join ch c))).
Proof.
  intros H. destruct (join_channels c ch) as [->| ->]; [exact H|].
  intros n Hn. apply elem_of_union in Hn as [Hn|Hn]; [|now apply H].
  apply elem_of_singleton in Hn as ->. apply startswith_hashed.
Qed.

Lemma join_all_keeps_hashed {W} names : forall (c : SwarmIRC W),
  all_hashed (channels c) -> all_hashed (channels (snd (join_all names c))).
Proof.
  induction names as [|n names IH]; intros c H; [exact H|].
  cbn [join_all]. unfold bind.
  pose proof (join_keeps_hashed c n H) as H1.
  destruct (join n c) as [[[]|x] c1]; cbn [snd] in *; [now apply IH | exact H1].
Qed.

(** X10. Every name in [channels] begins with [#]: this holds of a new
    client and is kept by [join], by [part] and by the joining of a whole
    list of channels, whatever the state of the connection and whatever
    names they are given. *)
Theorem channels_all_hashed {W} (c : SwarmIRC W) :
  all_hashed (channels (init (W:=W) (url c) (api_key c)))
  /\ (all_hashed (channels c) ->
      (forall ch, all_hashed (channels (snd (join ch c))))
      /\ (forall ch reason, all_hashed (channels (snd (part ch reason c))))
      /\ (forall names, all_hashed (channels (snd (join_all names c))))).
Proof.
  split; [intros n Hn; now apply not_elem_of_empty in Hn|].
  intros H. split; [|split].
  - intros ch. now apply join_keeps_hashed.
  - intros ch reason. destruct (part_channels c ch reason) as [->| ->];
      [exact H|].
    intros n Hn. apply elem_of_difference in Hn as [Hn _]. now apply H.
  - intros names. now apply join_all_keeps_hashed.
Qed.

Lemma channels_all_hashed_witness :
  all_hashed (channels (snd (join_all [s "general"; s "#data"] connected))).
Proof.
  refine (proj2 (proj2 (proj2 (channels_all_hashed connected) _)) _).
  intros n Hn. now apply not_elem_of_empty in Hn.
Defined.

(** X11. On a connection that is closed every action raises
    [ConnectionClosed] and leaves the client as it was; [join] and [part]
    in particular do not touch [channels] when their line could not be
    sent. *)
Theorem closed_connection_raises {W} (c : SwarmIRC W) (w : WebSocket) :
  ws c = Some w -> closed w = true ->
  (forall ch, join ch c = (Raise ConnectionClosed, c))
  /\ (forall ch reason, part ch reason c = (Raise ConnectionClosed, c))
  /\ (forall target msg, send target msg c = (Raise ConnectionClosed, c))
  /\ (forall ch, who ch c = (Raise ConnectionClosed, c))
  /\ (forall nick, whois nick c = (Raise ConnectionClosed, c))
  /\ list_channels c = (Raise ConnectionClosed, c)
  /\ (forall nick query_type,
        query nick query_type c = (Raise ConnectionClosed, c))
  /\ (forall command description,
        register_command command description c
        = (Raise ConnectionClosed, c))
  /\ (forall ch topic_, set_topic ch topic_ c = (Raise ConnectionClosed, c)).
Proof.
  intros Hw Hc.
  repeat split; intros;
    unfold join, part, send, who, whois, list_channels, query,
      register_command, set_topic, bind;
    now rewrite (send_closed c w _ Hw Hc).
Qed.

Lemma closed_connection_raises_witness :
  join (s "general") (set_ws (Some (ws_close (scripted []))) fresh)
  = (Raise ConnectionClosed, set_ws (Some (ws_close (scripted []))) fresh).
Proof.
  exact (proj1 (closed_connection_raises
                  (set_ws (Some (ws_close (scripted []))) fresh)
                  (ws_close (scripted [])) eq_refl eq_refl) (s "general")).
Defined.

(** X12. On a live connection [join] followed by [part] of the same
    channel, each given with or without its [#], sends the JOIN line and
    then the PART line and leaves the channel out of [channels]. *)
Theorem join_then_part {W} (c : SwarmIRC W) (w : WebSocket)
    (ch ch' reason : str) :
  ws c = Some w -> closed w = false ->
  hashed ch' = hashed ch ->
  exists c',
    bind (join ch) (fun _ => part ch' reason) c = (Ok tt, c')
    /\ (outbox <$> ws c')
       = Some (outbox w ++ [s "JOIN " ++ hashed ch;
                            s "PART " ++ hashed ch ++ s " :" ++ reason])
    /\ channels c' = channels c ∖ {[hashed ch]}.
Proof.
  intros Hw Hc Hsame. unfold bind. rewrite (join_online c w ch Hw Hc).
  erewrite part_online; [|reflexivity|reflexivity].
  rewrite Hsame.
  eexists. split; [reflexivity|]. split.
  - cbn [ws set_ws set_channels fmap option_fmap option_map outbox].
    now rewrite <- app_assoc.
  - cbn [channels set_channels set_ws]. apply set_eq. intros x.
    rewrite !elem_of_difference, elem_of_union, elem_of_singleton. tauto.
Qed.

Lemma join_then_part_witness :
  exists c',
    bind (join (s "general")) (fun _ => part (s "#general") (s "bye"))
      connected = (Ok tt, c')
    /\ (outbox <$> ws c')
       = Some ([] ++ [s "JOIN #general"; s "PART #general :bye"])
    /\ channels c' = channels connected ∖ {[s "#general"]}.
Proof.
  exact (join_then_part connected (scripted []) (s "general") (s "#general")
           (s "bye") eq_refl eq_refl eq_refl).
Defined.

(** X13. [who] and [set_topic] treat a channel name as [join] does: given
    without its [#] they do exactly what they do given with it. *)
Theorem who_topic_normalise {W} (c : SwarmIRC W) (ch : str) :
  startswith ch [HASH] = false ->
  who ch c = who (HASH :: ch) c
  /\ (forall topic_, set_topic ch topic_ c = set_topic (HASH :: ch) topic_ c).
Proof.
  intros H. unfold who, set_topic. now rewrite hashed_hash.
Qed.

Lemma who_topic_normalise_witness :
  who (s "general") connected = who (s "#general") connected
  /\ (forall topic_,
        set_topic (s "general") topic_ connected
        = set_topic (s "#general") topic_ connected).
Proof. exact (who_topic_normalise connected (s "general") eq_refl). Defined.

End MembershipProps.

(** ** Connecting, listening and disconnecting *)

Module LifecycleProps.
Import Py Re Eff Transport Client Grammar DispatchFacts Examples Lifecycle
  FramingProps ActionProps MembershipProps HandshakeProps.

Section WithWorld.
Context {W : Type}.
Implicit Types (c : SwarmIRC W) (e : @Env W).

Lemma auth_step_frame msg c :
  ws (fst (auth_step msg c)) = ws c
  /\ _handlers (fst (auth_step msg c)) = _handlers c
  /\ channels (fst (auth_step msg c)) = channels c.
Proof.
  unfold auth_step.
  destruct (contains (s "001") (strip msg));
    [destruct (re_search WELCOME_RE (strip msg))|];
    repeat split; reflexivity.
Qed.

(** What the loop of [connect] never touches, and what it only raises. *)
Lemma auth_loop_frame msgs : forall c,
  _handlers (snd (auth_loop msgs c)) = _handlers c
  /\ channels (snd (auth_loop msgs c)) = channels c
  /\ (outbox <$> ws (snd (auth_loop msgs c))) = (outbox <$> ws c)
  /\ (closed <$> ws (snd (auth_loop msgs c))) = (closed <$> ws c)
  /\ (authenticated c = true ->
      authenticated (snd (auth_loop msgs c)) = true).
Proof.
  induction msgs as [|m msgs IH]; intros c; cbn [auth_loop]; [auto|].
  pose proof (auth_step_frame m (delivered msgs c)) as (Hw & Hh & Hc).
  pose proof (auth_step_authenticated m (delivered msgs c)) as Ha.
  destruct (auth_step m (delivered msgs c)) as [c1 stop].
  cbn [fst] in Hw, Hh, Hc, Ha.
  assert (Ho : (outbox <$> ws c1) = (outbox <$> ws c)
               /\ (closed <$> ws c1) = (closed <$> ws c)).
  { rewrite Hw. unfold delivered. cbn. now destruct (ws c). }
  assert (Hm : authenticated c = true -> authenticated c1 = true).
  { intros H. rewrite Ha. cbn. now rewrite H. }
  destruct stop.
  - cbn [snd]. rewrite Hh, Hc. repeat split; tauto.
  - destruct (IH c1) as (-> & -> & -> & -> & Hmono).
    rewrite Hh, Hc. repeat split; tauto.
Qed.

(** After a loop that has returned, the connection holds the payloads
    that follow the first end-of-greeting payload. *)
Lemma auth_loop_rest pre term post : forall c,
  Forall (fun m => greeting_end m = false) pre ->
  greeting_end term = true ->
  (inbox <$> ws (snd (auth_loop (pre ++ term :: post) c)))
  = ((fun _ => post) <$> ws c).
Proof.
  induction pre as [|m pre IH]; intros c Hpre Hterm; cbn [app auth_loop].
  - pose proof (auth_step_frame term (delivered post c)) as (Hw & _).
    pose proof (auth_step_stop term (delivered post c)) as Hs.
    destruct (auth_step term (delivered post c)) as [c1 stop].
    cbn [fst snd] in *. rewrite Hs, Hterm. cbn [snd]. rewrite Hw.
    unfold delivered. cbn. now destruct (ws c).
  - inversion Hpre as [|? ? Hm Hpre']; subst.
    pose proof (auth_step_frame m (delivered (pre ++ term :: post) c))
      as (Hw & _).
    pose proof (auth_step_stop m (delivered (pre ++ term :: post) c)) as Hs.
    destruct (auth_step m (delivered (pre ++ term :: post) c)) as [c1 stop].
    cbn [fst snd] in *. rewrite Hs, Hm. rewrite (IH c1 Hpre' Hterm), Hw.
    unfold delivered. cbn. now destruct (ws c).
Qed.

Lemma auth_loop_starved msgs : forall c,
  Forall (fun m => greeting_end m = false) msgs ->
  fst (auth_loop msgs c) = Raise ConnectionClosed.
Proof.
  induction msgs as [|m msgs IH]; intros c Hall; cbn [auth_loop];
    [reflexivity|].
  inversion Hall as [|? ? Hm Hall']; subst.
  pose proof (auth_step_stop m (delivered msgs c)) as Hs.
  destruct (auth_step m (delivered msgs c)) as [c1 stop].
  cbn [snd] in Hs. rewrite Hs, Hm. now apply IH.
Qed.

Lemma parse_line_handlers (c1 c2 : SwarmIRC W) line :
  _handlers c1 = _handlers c2 -> _parse_line c1 line = _parse_line c2 line.
Proof. intros H. unfold _parse_line, fire. now rewrite H. Qed.

Lemma pump_handlers (c1 c2 : SwarmIRC W) payloads :
  _handlers c1 = _handlers c2 -> pump c1 payloads = pump c2 payloads.
Proof.
  intros H. induction payloads as [|p ps IH]; [reflexivity|].
  cbn [pump]. rewrite IH. f_equal. unfold on_payload.
  induction (split_crlf [] (strip p)) as [|l ls IHl]; [reflexivity|].
  cbn [parse_lines]. now rewrite IHl, (parse_line_handlers c1 c2 l H).
Qed.

End WithWorld.

(** What a [connect] that gets through the greeting leaves behind. *)
Lemma connect_reaches {W} (c : SwarmIRC W) (banner : str)
    (msgs pre : list str) (term : str) (post : list str) :
  window msgs pre term post ->
  exists answer c',
    connect (fun _ => Ok (scripted (banner :: msgs))) c = (Ok answer, c')
    /\ ws c' = Some {| inbox := post; outbox := [s "AUTH " ++ api_key c];
                       closed := false |}
    /\ channels c' = channels c
    /\ _handlers c' = _handlers c.
Proof.
  intros (-> & Hpre & Hterm). rewrite connect_unfold.
  set (c0 := authenticating c (pre ++ term :: post)).
  destruct (auth_loop_window pre term post c0 Hpre Hterm) as (c' & E & _).
  pose proof (auth_loop_frame (pre ++ term :: post) c0)
    as (Hh & Hc & Ho & Hcl & _).
  pose proof (auth_loop_rest pre term post c0 Hpre Hterm) as Hi.
  rewrite E in *. cbn [snd] in *.
  exists (authenticated c'), c'. split; [reflexivity|].
  split; [|split; assumption].
  destruct (ws c') as [[i o cl]|]; cbn in Hi, Ho, Hcl; [|discriminate].
  now injection Hi as ->; injection Ho as ->; injection Hcl as ->.
Qed.

(** X14. A [connect] that gets through the greeting has sent one line
    only, AUTH with the key, and leaves on the connection exactly the
    payloads that follow the first end-of-greeting payload; it changes
    neither the joined channels nor the handler registries. *)
Theorem connect_wire {W} (c : SwarmIRC W) (banner : str)
    (msgs pre : list str) (term : str) (post : list str) :
  window msgs pre term post ->
  exists answer c',
    connect (fun _ => Ok (scripted (banner :: msgs))) c = (Ok answer, c')
    /\ ws c' = Some {| inbox := post; outbox := [s "AUTH " ++ api_key c];
                       closed := false |}
    /\ channels c' = channels c
    /\ _handlers c' = _handlers c.
Proof. exact (connect_reaches c banner msgs pre term post). Qed.

Lemma connect_wire_witness :
  exists answer c',
    connect (fun _ => Ok (scripted [s "hi"; welcome_alice; end_of_motd;
                                    privmsg_line])) fresh
    = (Ok answer, c')
    /\ ws c' = Some {| inbox := [privmsg_line];
                       outbox := [s "AUTH " ++ api_key fresh];
                       closed := false |}
    /\ channels c' = channels fresh
    /\ _handlers c' = _handlers fresh.
Proof.
  apply (connect_wire fresh (s "hi") [welcome_alice; end_of_motd; privmsg_line]
           [welcome_alice] end_of_motd [privmsg_line]).
  repeat split. repeat constructor.
Defined.

(** X15. The ways [connect] fails. If the transport cannot be opened its
    error is raised and the client is untouched. If the peer closes before
    its banner, [ConnectionClosed] is raised and nothing has been sent. If
    no payload after the banner carries an end-of-greeting numeric,
    [connect] never returns an answer: it raises [ConnectionClosed], with
    AUTH as the only line sent. *)
Theorem connect_failures {W} (c : SwarmIRC W) :
  (forall dial x, dial (url c) = Raise x -> connect dial c = (Raise x, c))
  /\ connect (fun _ => Ok (scripted [])) c
     = (Raise ConnectionClosed, set_ws (Some (scripted [])) c)
  /\ (forall banner msgs,
        Forall (fun m => greeting_end m = false) msgs ->
        let r := connect (fun _ => Ok (scripted (banner :: msgs))) c in
        fst r = Raise ConnectionClosed
        /\ (outbox <$> ws (snd r)) = Some [s "AUTH " ++ api_key c]).
Proof.
  split; [|split].
  - intros dial x H. unfold connect, bind, get, raise. cbn. now rewrite H.
  - reflexivity.
  - intros banner msgs Hall r. subst r. rewrite connect_unfold.
    pose proof (auth_loop_starved msgs (authenticating c msgs) Hall) as Hf.
    pose proof (auth_loop_frame msgs (authenticating c msgs))
      as (_ & _ & Ho & _).
    destruct (auth_loop msgs (authenticating c msgs)) as [[[]|x] c'];
      cbn [fst snd] in *; [discriminate Hf|].
    injection Hf as ->. split; [reflexivity | exact Ho].
Qed.

Lemma connect_failures_witness :
  let r := connect (fun _ => Ok (scripted [s "hi"; welcome_alice])) fresh in
  fst r = Raise ConnectionClosed
  /\ (outbox <$> ws (snd r)) = Some [s "AUTH " ++ api_key fresh].
Proof.
  apply (proj2 (proj2 (connect_failures fresh)) (s "hi") [welcome_alice]).
  repeat constructor.
Defined.

(** X16. [authenticated] is never taken back: whatever the transport does,
    a client that was authenticated still is after [connect], whether
    [connect] returns or raises. *)
Theorem authenticated_monotone {W} (c : SwarmIRC W)
    (dial : str -> result WebSocket) :
  authenticated c = true ->
  authenticated (snd (connect dial c)) = true.
Proof.
  intros Ha. unfold connect, bind, get, modify, raise, ret, recv, _send.
  cbn [fst snd]. destruct (dial (url c)) as [w|x]; [|exact Ha].
  cbn [ws set_ws]. unfold ws_recv.
  destruct (inbox w) as [|banner msgs]; [exact Ha|].
  cbn [ws set_ws]. unfold ws_send. cbn [closed].
  destruct (closed w); [exact Ha|].
  cbn [ws set_ws inbox].
  match goal with
  | |- context [auth_loop ?m ?c0] =>
      pose proof (auth_loop_frame m c0) as (_ & _ & _ & _ & Hm);
      destruct (auth_loop m c0) as [[[]|x] c']
  end; cbn [snd] in *; now apply Hm.
Qed.

Lemma authenticated_monotone_witness :
  authenticated
    (snd (connect (fun _ => Ok (scripted [s "hi"; end_of_motd]))
            (set_authenticated true fresh))) = true.
Proof.
  exact (authenticated_monotone (set_authenticated true fresh)
           (fun _ => Ok (scripted [s "hi"; end_of_motd])) eq_refl).
Defined.

(** X17. [disconnect]. Without a connection it only clears [_running].
    On a live connection it sends QUIT as the last line and closes, and
    the connection handle stays in place, so that every later send raises
    [ConnectionClosed] instead of being skipped. On a connection already
    closed, as after a first [disconnect], it raises [ConnectionClosed]. *)
Theorem disconnect_behaviour {W} (c : SwarmIRC W) :
  (ws c = None -> disconnect c = (Ok tt, set_running false c))
  /\ (forall w,
        ws c = Some w -> closed w = false ->
        exists c',
          disconnect c = (Ok tt, c')
          /\ ws c' = Some {| inbox := inbox w;
                             outbox := outbox w ++ [s "QUIT :Goodbye"];
                             closed := true |}
          /\ _running c' = false
          /\ (forall msg, _send msg c' = (Raise ConnectionClosed, c'))
          /\ fst (disconnect c') = Raise ConnectionClosed)
  /\ (forall w,
        ws c = Some w -> closed w = true ->
        disconnect c = (Raise ConnectionClosed, set_running false c)).
Proof.
  split; [|split].
  - intros H. unfold disconnect, bind, modify, get, ret. cbn. now rewrite H.
  - intros w Hw Hc. unfold disconnect, bind, modify, get. cbn [ws set_running].
    rewrite Hw.
    rewrite (send_online (set_running false c) w _ Hw Hc).
    eexists. split; [reflexivity|]. cbn [ws set_ws fmap option_fmap option_map].
    split; [reflexivity|]. split; [reflexivity|]. split.
    + intros msg. now apply send_closed with (ws_close
        {| inbox := inbox w; outbox := outbox w ++ [s "QUIT :Goodbye"];
           closed := false |}).
    + unfold bind, modify, get, _send, ws_send. reflexivity.
  - intros w Hw Hc. unfold disconnect, bind, modify, get. cbn [ws set_running].
    rewrite Hw. now rewrite (send_closed (set_running false c) w _ Hw Hc).
Qed.

Lemma disconnect_behaviour_witness :
  exists c',
    disconnect connected = (Ok tt, c')
    /\ ws c' = Some {| inbox := []; outbox := [] ++ [s "QUIT :Goodbye"];
                       closed := true |}
    /\ _running c' = false
    /\ (forall msg, _send msg c' = (Raise ConnectionClosed, c'))
    /\ fst (disconnect c') = Raise ConnectionClosed.
Proof.
  exact (proj1 (proj2 (disconnect_behaviour connected)) (scripted [])
           eq_refl eq_refl).
Defined.






End LifecycleProps.

(** ** The bridge: its table and its two handlers *)

Module BridgeProps.
Import Py Re Eff Transport Grammar Examples Lifecycle FramingProps
  ActionProps WireProps MembershipProps LifecycleProps RelayProps Bridge.

Lemma dict_get_set_eq {V} (d : list (Z * V)) k v :
  dict_get (dict_set d k v) k = Some v.
Proof.
  induction d as [|[k' v'] d IH]; cbn.
  - now rewrite Z.eqb_refl.
  - destruct (Z.eqb_spec k' k) as [->|Hne]; cbn.
    + now rewrite Z.eqb_refl.
    + destruct (Z.eqb_spec k' k); [contradiction | exact IH].
Qed.

Lemma dict_get_set_ne {V} (d : list (Z * V)) k v k0 :
  k <> k0 -> dict_get (dict_set d k v) k0 = dict_get d k0.
Proof.
  intros Hne. induction d as [|[k' v'] d IH]; cbn.
  - destruct (Z.eqb_spec k k0); [contradiction | reflexivity].
  - destruct (Z.eqb_spec k' k) as [->|Hk]; cbn.
    + destruct (Z.eqb_spec k k0); [contradiction | reflexivity].
    + now rewrite IH.
Qed.

Lemma dict_set_id {V} (d : list (Z * V)) k v :
  dict_get d k = Some v -> dict_set d k v = d.
Proof.
  induction d as [|[k' v'] d IH]; cbn; [discriminate|].
  destruct (Z.eqb_spec k' k) as [->|Hne].
  - now intros [= ->].
  - intros H. now rewrite IH.
Qed.

Lemma dict_get_fresh {V} (d : list (Z * V)) k :
  ~ In k (map fst d) -> dict_get d k = None.
Proof.
  intros H. apply dict_get_none. intros v Hin. apply H.
  apply in_map_iff. now exists (k, v).
Qed.

Lemma dict_get_in {V} (d : list (Z * V)) k v :
  NoDup (map fst d) -> In (k, v) d -> dict_get d k = Some v.
Proof.
  induction d as [|[k' v'] d IH]; cbn; [tauto|].
  intros Hnd [E|Hin].
  - injection E as -> ->. now rewrite Z.eqb_refl.
  - apply NoDup_cons in Hnd as [Hfresh Hnd].
    destruct (Z.eqb_spec k' k) as [->|]; [|now apply IH].
    exfalso. apply Hfresh. apply list_elem_of_In, in_map_iff. now exists (k, v).
Qed.

Section WithWorld.
Context {W : Type}.
Implicit Types (b : DiscordSwarmIRCBridge W).

Lemma bridge_all_discord items : forall b,
  discord (bridge_all items b) = discord b
  /\ swarmirc (bridge_all items b) = swarmirc b
  /\ swarmirc_name (bridge_all items b) = swarmirc_name b.
Proof.
  induction items as [|[k v] items IH]; intros b; cbn [bridge_all]; [auto|].
  destruct (IH (match get_channel (discord b) k with
                | Some _ =>
                    set_bridged_channels (dict_set (bridged_channels b) k v) b
                | None => b
                end)) as (-> & -> & ->).
  destruct (get_channel (discord b) k); auto.
Qed.

(** What the table holds after the loop of [on_ready] over items with
    distinct ids. *)
Lemma bridge_all_get items : forall b k,
  NoDup (map fst items) ->
  dict_get (bridged_channels (bridge_all items b)) k =
  match get_channel (discord b) k, dict_get items k with
  | Some _, Some v => Some v
  | _, _ => dict_get (bridged_channels b) k
  end.
Proof.
  induction items as [|[k0 v0] items IH]; intros b k Hnd.
  - cbn. now destruct (get_channel (discord b) k).
  - cbn [map fst] in Hnd. apply NoDup_cons in Hnd as [Hfresh Hnd].
    cbn [bridge_all dict_get]. rewrite IH by assumption.
    destruct (Z.eqb_spec k0 k) as [->|Hne].
    + rewrite (dict_get_fresh items k)
        by (intros H; apply Hfresh; now apply list_elem_of_In).
      destruct (get_channel (discord b) k) eqn:Hv; cbn; rewrite ?Hv.
      * now rewrite dict_get_set_eq.
      * reflexivity.
    + assert (Hd : forall b',
                 b' = match get_channel (discord b) k0 with
                      | Some _ =>
                          set_bridged_channels
                            (dict_set (bridged_channels b) k0 v0) b
                      | None => b
                      end ->
                 discord b' = discord b
                 /\ dict_get (bridged_channels b') k
                    = dict_get (bridged_channels b) k).
      { intros b' ->. destruct (get_channel (discord b) k0); [|auto].
        cbn. now rewrite dict_get_set_ne. }
      destruct (Hd _ eq_refl) as [-> ->]. reflexivity.
Qed.

Lemma bridge_all_fixed items : forall b,
  (forall k v, In (k, v) items -> get_channel (discord b) k <> None ->
               dict_get (bridged_channels b) k = Some v) ->
  bridge_all items b = b.
Proof.
  induction items as [|[k0 v0] items IH]; intros b H; [reflexivity|].
  cbn [bridge_all].
  assert (E : match get_channel (discord b) k0 with
              | Some _ =>
                  set_bridged_channels
                    (dict_set (bridged_channels b) k0 v0) b
              | None => b
              end = b).
  { destruct (get_channel (discord b) k0) eqn:Hv; [|reflexivity].
    rewrite dict_set_id; [now destruct b|].
    apply H; [now left | congruence]. }
  rewrite E. apply IH. intros k v Hin. apply H. now right.
Qed.
End WithWorld.

Lemma channel_ids_distinct : NoDup (map fst CHANNEL_MAPPINGS).
Proof.
  cbn. repeat (apply NoDup_cons_2;
               [rewrite ?elem_of_cons, elem_of_nil; intuition discriminate|]).
  apply NoDup_nil_2.
Qed.

(** X20. After [on_ready] on a new bridge the table maps a Discord
    channel id to a SwarmIRC channel exactly when the id is configured in
    [CHANNEL_MAPPINGS] and the bot can see that channel, and then to the
    configured name. *)
Theorem on_ready_bridges_visible {W} (d : Discord) (url api_key : str)
    (k : Z) :
  dict_get
    (bridged_channels (snd (on_ready (init (W:=W) d url api_key)))) k
  = match get_channel d k with
    | Some _ => dict_get CHANNEL_MAPPINGS k
    | None => None
    end.
Proof.
  unfold on_ready, modify. cbn [snd].
  rewrite bridge_all_get by exact channel_ids_distinct.
  cbn [discord init bridged_channels dict_get].
  destruct (get_channel d k); [|reflexivity].
  now destruct (dict_get CHANNEL_MAPPINGS k).
Qed.

(** X21. [on_ready] may fire again, as it does when Discord reconnects:
    a second run changes nothing in the bridge, whatever state the first
    run started from. *)
Theorem on_ready_idempotent {W} (b : DiscordSwarmIRCBridge W) :
  on_ready (snd (on_ready b)) = (Ok tt, snd (on_ready b)).
Proof.
  unfold on_ready, modify. cbn [snd]. f_equal.
  apply bridge_all_fixed. intros k v Hin Hv.
  rewrite bridge_all_get by exact channel_ids_distinct.
  destruct (bridge_all_discord CHANNEL_MAPPINGS b) as (Hd & _).
  rewrite Hd in Hv.
  destruct (get_channel (discord b) k); [|contradiction].
  now rewrite (dict_get_in _ _ _ channel_ids_distinct Hin).
Qed.

Lemma bridge_eta {W} (b : DiscordSwarmIRCBridge W) :
  set_swarmirc (swarmirc b) b = b /\ set_discord (discord b) b = b.
Proof. now destruct b. Qed.

(** X22. No Discord event puts anything on the SwarmIRC side. discord.py
    calls the registered [on_message] with the message alone; the closure
    has two parameters, so the call raises [TypeError] before the first
    line of its body, for every message and in every state of the bridge.
    Hence, whatever events arrive and in whatever order, their dispatch
    returns with the SwarmIRC client, its connection and what has been
    sent on it, exactly as they were; and Discord and the bridge's name
    are as they were, too: only [on_ready] changes anything, the table. *)
Theorem discord_events_not_forwarded {W} (b : DiscordSwarmIRCBridge W) :
  (forall m, on_message_closure [a_message m] b = (Raise TypeError, b))
  /\ forall evs,
       exists b',
         dispatch_all evs b = (Ok tt, b')
         /\ swarmirc b' = swarmirc b
         /\ discord b' = discord b
         /\ swarmirc_name b' = swarmirc_name b
         /\ (Forall (fun ev => ev <> ready) evs -> b' = b).
Proof.
  split; [reflexivity|]. intros evs. revert b.
  induction evs as [|ev evs IH]; intros b.
  - exists b. now repeat split.
  - cbn [dispatch_all]. unfold bind. destruct ev as [|m].
    + cbn [dispatch]. unfold ready_event, try_pass, on_ready, modify.
      destruct (IH (bridge_all CHANNEL_MAPPINGS b))
        as (b' & -> & Hs & Hd & Hn & _).
      destruct (bridge_all_discord CHANNEL_MAPPINGS b) as (Ed & Es & En).
      exists b'. split; [reflexivity|].
      split; [congruence|]. split; [congruence|]. split; [congruence|].
      intros H. apply Forall_cons in H as [H _]. now contradiction H.
    + cbn [dispatch]. destruct (message_event_fails b m) as [_ ->].
      destruct (IH b) as (b' & -> & Hs & Hd & Hn & Hall).
      exists b'. split; [reflexivity|]. repeat split; try assumption.
      intros H. apply Forall_cons in H as [_ H]. now apply Hall.
Qed.

(** What the body of the Discord handler can change, with the bridge
    and a message for its parameters. *)
Lemma on_message_body_frame {W} (b : DiscordSwarmIRCBridge W) (m : Message) :
  exists b',
    on_message m b = (Ok tt, b')
    /\ discord b' = discord b
    /\ bridged_channels b' = bridged_channels b
    /\ swarmirc_name b' = swarmirc_name b
    /\ (Client.ws (swarmirc b) = None -> b' = b)
    /\ (forall w, Client.ws (swarmirc b) = Some w -> closed w = true ->
                  b' = b).
Proof.
  unfold on_message.
  destruct (author_bot m || negb (guild m)); [exists b; now repeat split|].
  unfold bind, get.
  destruct (dict_get (bridged_channels b) (channel_id m)) as [sch|];
    [|exists b; now repeat split].
  unfold try_pass, on_swarmirc, Client.send.
  destruct (Client._send _ (swarmirc b)) as [[[]|x] c'] eqn:E;
    (eexists; split; [reflexivity|]); repeat split; intros.
  - rewrite send_offline in E by assumption. injection E as <-.
    apply bridge_eta.
  - erewrite send_closed in E by eassumption. discriminate E.
  - rewrite send_offline in E by assumption. discriminate E.
  - erewrite send_closed in E by eassumption. injection E as _ <-.
    apply bridge_eta.
Qed.

(** X23. However the closure [on_message] is called, it never touches
    Discord, the table or the bridge's name, and a failure of its send
    does not come out of it: it never raises [ConnectionClosed]. Called
    with any number of arguments but two, as discord.py calls it with
    one, it raises [TypeError] and changes nothing. When the SwarmIRC
    connection is missing or has been closed it changes nothing
    either. *)
Theorem on_message_contained {W} (b : DiscordSwarmIRCBridge W)
    (args : list argument) :
  exists r b',
    on_message_closure args b = (r, b')
    /\ discord b' = discord b
    /\ bridged_channels b' = bridged_channels b
    /\ swarmirc_name b' = swarmirc_name b
    /\ r <> Raise ConnectionClosed
    /\ (length args <> 2%nat -> r = Raise TypeError /\ b' = b)
    /\ (Client.ws (swarmirc b) = None -> b' = b)
    /\ (forall w, Client.ws (swarmirc b) = Some w -> closed w = true ->
                  b' = b).
Proof.
  assert (Hfail : forall x, x <> ConnectionClosed ->
            exists r b',
              (@Raise unit x, b) = (r, b')
              /\ discord b' = discord b
              /\ bridged_channels b' = bridged_channels b
              /\ swarmirc_name b' = swarmirc_name b
              /\ r <> Raise ConnectionClosed
              /\ (Client.ws (swarmirc b) = None -> b' = b)
              /\ (forall w, Client.ws (swarmirc b) = Some w ->
                            closed w = true -> b' = b)).
  { intros x Hx. exists (Raise x), b. repeat split. congruence. }
  destruct args as [|a [|a' [|a'' args]]].
  - exists (Raise TypeError), b. now repeat split.
  - exists (Raise TypeError), b. now repeat split.
  - assert (Hlen : length [a; a'] <> 2%nat -> False) by (intros H; now apply H).
    destruct a as [|m0], a' as [|m].
    + destruct (Hfail AttributeError) as (r & b' & E & H); [discriminate|].
      exists r, b'. split; [exact E|]. intuition.
    + destruct (on_message_body_frame b m) as (b' & E & H).
      exists (Ok tt), b'. split; [exact E|]. intuition discriminate.
    + destruct (Hfail AttributeError) as (r & b' & E & H); [discriminate|].
      exists r, b'. split; [exact E|]. intuition.
    + unfold on_message_closure, bind_arguments. cbn [length Nat.eqb].
      destruct (author_bot m || negb (guild m)).
      * exists (Ok tt), b. repeat split; try discriminate.
        all: exfalso; auto.
      * destruct (Hfail AttributeError) as (r & b' & E & H); [discriminate|].
        exists r, b'. split; [exact E|]. intuition.
  - exists (Raise TypeError), b. now repeat split.
Qed.

Lemma parse_lines_inert {W} (c : Client.SwarmIRC W) lines :
  (forall k, Forall (fun h : Client.handler W =>
                       forall a w', fst (h a w') = w')
               (Client._handlers c k)) ->
  forall e, exists e',
    Client.parse_lines c lines e = (Ok tt, e')
    /\ Client.world e' = Client.world e.
Proof.
  intros Hc. induction lines as [|line lines IH]; intros e.
  - now exists e.
  - cbn [Client.parse_lines]. unfold bind.
    destruct (dispatch_inert c line e Hc) as (e1 & -> & H1).
    destruct (IH e1) as (e2 & -> & H2). exists e2. split; congruence.
Qed.

Lemma pump_inert {W} (c : Client.SwarmIRC W) payloads :
  (forall k, Forall (fun h : Client.handler W =>
                       forall a w', fst (h a w') = w')
               (Client._handlers c k)) ->
  forall e, exists e',
    pump c payloads e = (Ok tt, e')
    /\ Client.world e' = Client.world e.
Proof.
  intros Hc. induction payloads as [|p payloads IH]; intros e.
  - now exists e.
  - cbn [pump]. unfold bind, Client.on_payload.
    destruct (parse_lines_inert c (Client.split_crlf [] (strip p)) Hc e)
      as (e1 & -> & H1).
    destruct (IH e1) as (e2 & -> & H2). exists e2. split; congruence.
Qed.

(** X24. No SwarmIRC traffic reaches Discord. On the client that
    [__init__] sets up, a PRIVMSG line relayed by the server makes
    [_parse_line] call the raw handler and the message handler, each
    once and with the right arguments; but both are coroutine functions
    and the call is not awaited, so their bodies do not run and what the
    handlers can reach is as it was: nothing is posted and the bridge does
    not learn its name. The same holds of [listen] on any connection,
    whatever payloads are pending on it. *)
Theorem swarm_handlers_never_run {W} (d : Discord) (url api_key : str)
    (e : @Client.Env W) :
  (forall nick target text,
      token nick -> ~ In BANG nick -> token target ->
      one_line text -> ends_clean text ->
      Client._parse_line (swarmirc (init d url api_key))
        (relayed nick (s "PRIVMSG " ++ target ++ s " :" ++ text)) e =
      (Ok tt,
       {| Client.world := Client.world e;
          Client.calls :=
            Client.calls e
            ++ [(Client.raw, 0,
                 [relayed nick (s "PRIVMSG " ++ target ++ s " :" ++ text)]);
                (Client.message, 0, [nick; target; text])] |}))
  /\ (forall w abnormal,
        exists c' e',
          listen abnormal
            (Client.set_ws (Some w) (swarmirc (init d url api_key)), e)
          = (Ok tt, (c', e'))
          /\ Client.world e' = Client.world e).
Proof.
  split.
  - intros nick target text Hn Hbang Ht Hm He.
    rewrite relayed_privmsg_dispatch by assumption.
    rewrite !run_all_inert by apply bridge_registries_inert.
    reflexivity.
  - intros w abnormal. unfold listen.
    cbn [fst snd Client.ws Client.set_ws Client.set_running].
    edestruct (pump_inert (W:=W)) as (e' & -> & Hw).
    { intros k. apply (bridge_registries_inert url api_key k). }
    destruct abnormal; eexists _, e'; (split; [reflexivity | exact Hw]).
Qed.

Lemma swarm_handlers_never_run_witness :
  Client._parse_line (swarmirc new_bridge)
    (s ":alice PRIVMSG #general :hello world") quiet =
  (Ok tt,
   {| Client.world := [];
      Client.calls :=
        [(Client.raw, 0, [s ":alice PRIVMSG #general :hello world"]);
         (Client.message, 0,
          [s "alice"; s "#general"; s "hello world"])] |}).
Proof.
  apply (proj1 (swarm_handlers_never_run open_discord
                  (Client.url fresh) (Client.api_key fresh) quiet)
           (s "alice") (s "#general") (s "hello world")).
  - apply token_lit; [discriminate | reflexivity].
  - intros H. repeat (destruct H as [H|H]; [discriminate H|]). exact H.
  - apply token_lit; [discriminate | reflexivity].
  - repeat constructor.
  - reflexivity.
Defined.

(** X25. The SwarmIRC handler never raises and never touches the SwarmIRC
    client, the table or the bridge's name. It drops direct messages
    (targets without [#]) and messages sent under the bridge's own name,
    and when Discord refuses the post the failure is swallowed and
    nothing is recorded as posted. *)
Theorem on_swarm_message_contained {W} (b : DiscordSwarmIRCBridge W)
    (sender target text : str) :
  (exists b',
      on_swarm_message sender target text b = (Ok tt, b')
      /\ swarmirc b' = swarmirc b
      /\ bridged_channels b' = bridged_channels b
      /\ swarmirc_name b' = swarmirc_name b
      /\ ((forall i, accepts (discord b) i = false) -> b' = b))
  /\ (startswith target [HASH] = false ->
      on_swarm_message sender target text b = (Ok tt, b))
  /\ (swarmirc_name b = Some sender ->
      on_swarm_message sender target text b = (Ok tt, b)).
Proof.
  split; [|split].
  - unfold on_swarm_message, bind, get.
    destruct (negb (startswith target [HASH])); [exists b; now repeat split|].
    case_bool_decide; [exists b; now repeat split|].
    destruct (startswith text (s "[Discord/")); [exists b; now repeat split|].
    destruct (find_discord_id (bridged_channels b) (from1 target)) as [did|];
      [|exists b; now repeat split].
    destruct (did =? 0)%Z; [exists b; now repeat split|].
    destruct (get_channel (discord b) did) as [dc|];
      [|exists b; now repeat split].
    unfold try_pass, on_discord, channel_send.
    destruct (accepts (discord b) (id dc)) eqn:Hacc;
      (eexists; split; [reflexivity|]); repeat split.
    + intros Hno. rewrite Hno in Hacc. discriminate Hacc.
    + intros _. apply bridge_eta.
  - intros H. unfold on_swarm_message. now rewrite H.
  - intros H. unfold on_swarm_message, bind, get.
    destruct (negb (startswith target [HASH])); [reflexivity|].
    now rewrite bool_decide_eq_true_2.
Qed.

Lemma on_swarm_message_contained_witness :
  on_swarm_message (s "alice") (s "bridge") (s "psst") running_bridge
  = (Ok tt, running_bridge)
  /\ on_swarm_message (s "bridge") (s "#general") (s "hi") running_bridge
     = (Ok tt, running_bridge).
Proof.
  pose proof (on_swarm_message_contained running_bridge (s "alice")
                (s "bridge") (s "psst")) as (_ & Hdm & _).
  pose proof (on_swarm_message_contained running_bridge (s "bridge")
                (s "#general") (s "hi")) as (_ & _ & Hself).
  split; [exact (Hdm eq_refl) | exact (Hself eq_refl)].
Defined.

(** X26. Once the bridge knows its name, raw lines never change it, and
    a raw line never changes anything but the name and never raises: the
    name can only go from unset to set, and only on a line that contains
    the words of the welcome. *)
Theorem on_swarm_raw_sets_once {W} (b : DiscordSwarmIRCBridge W)
    (line : str) :
  (swarmirc_name b <> None -> on_swarm_raw line b = (Ok tt, b))
  /\ exists b',
       on_swarm_raw line b = (Ok tt, b')
       /\ discord b' = discord b
       /\ swarmirc b' = swarmirc b
       /\ bridged_channels b' = bridged_channels b
       /\ (swarmirc_name b' <> swarmirc_name b ->
           swarmirc_name b = None
           /\ contains (s "Welcome to ClawSwarm") line = true
           /\ exists m, re_search WELCOME_RE line = Some m
                        /\ swarmirc_name b' = Some (group m 1)).
Proof.
  unfold on_swarm_raw, bind, get. split.
  - intros H. rewrite bool_decide_eq_false_2 by assumption.
    now rewrite andb_false_r.
  - destruct (contains (s "Welcome to ClawSwarm") line);
      [|exists b; repeat split; congruence].
    case_bool_decide as Hn; cbn [andb];
      [|exists b; repeat split; congruence].
    destruct (re_search WELCOME_RE line) as [m|] eqn:Em;
      [|exists b; repeat split; congruence].
    eexists. split; [reflexivity|]. repeat split; try assumption.
    exists m. now split.
Qed.

Lemma on_swarm_raw_sets_once_witness :
  on_swarm_raw welcome_alice running_bridge = (Ok tt, running_bridge).
Proof.
  apply (proj1 (on_swarm_raw_sets_once running_bridge welcome_alice)).
  discriminate.
Defined.

(** X27. The tag of the Discord side survives the wire. The line that
    [send] makes of the channel and the text that the body of the Discord
    handler composes, [PRIVMSG #channel :[Discord/name] text], relayed by
    the server under any nick and read by a client's parser, reaches the
    message handlers with a body that still begins with [[Discord/]: the
    parser only trims the end of the line and cuts the body at its first
    line feed. The body of the SwarmIRC handler, in any bridge, returns on
    such a message without posting. The channel name and the nick are
    single tokens; the author's name and the text are arbitrary. *)
Theorem discord_echo_dropped {V U} (peer : Client.SwarmIRC V)
    (e : @Client.Env V) (nick swarm_channel name text : str)
    (other : DiscordSwarmIRCBridge U) :
  token swarm_channel -> token nick ->
  Client._parse_line peer
    (relayed nick
       (s "PRIVMSG " ++ HASH :: swarm_channel ++ s " :"
        ++ s "[Discord/" ++ name ++ s "] " ++ text)) e =
  (Ok tt,
   let line :=
     strip (relayed nick
              (s "PRIVMSG " ++ HASH :: swarm_channel ++ s " :"
               ++ s "[Discord/" ++ name ++ s "] " ++ text)) in
   let args :=
     [split_first BANG nick; HASH :: swarm_channel;
      s "[Discord/"
      ++ first_line (rev (drop_while isspace
                            (rev (name ++ s "] " ++ text))))] in
   {| Client.world :=
        run_all (Client._handlers peer Client.message) args
          (run_all (Client._handlers peer Client.raw) [line]
             (Client.world e));
      Client.calls :=
        Client.calls e
        ++ invocations peer Client.raw [line]
        ++ invocations peer Client.message args |})
  /\ on_swarm_message (split_first BANG nick) (HASH :: swarm_channel)
       (s "[Discord/"
        ++ first_line (rev (drop_while isspace
                              (rev (name ++ s "] " ++ text)))))
       other
     = (Ok tt, other).
Proof.
  intros Hsch Hn.
  set (rest := name ++ s "] " ++ text).
  set (r := rev (drop_while isspace (rev rest))).
  set (wire := s "PRIVMSG " ++ HASH :: swarm_channel ++ s " :"
               ++ s "[Discord/" ++ rest).
  set (head := COLON :: nick ++ SP :: s "PRIVMSG " ++ HASH :: swarm_channel
               ++ s " :[Discord/").
  assert (Hline : relayed nick wire = head ++ rest).
  { unfold relayed, wire, head.
    repeat (cbn [app]; rewrite <- !app_assoc). reflexivity. }
  assert (Hs : strip (relayed nick wire) = head ++ r).
  { rewrite Hline. apply strip_app; [discriminate | reflexivity|].
    apply (ends_clean_app (COLON :: nick)); [discriminate|].
    apply (ends_clean_app (SP :: s "PRIVMSG " ++ HASH :: swarm_channel));
      [discriminate | reflexivity]. }
  assert (Htok : token (HASH :: swarm_channel)).
  { destruct Hsch as [? ?]. split; [discriminate|].
    constructor; [reflexivity | assumption]. }
  split.
  - cbv zeta. apply parse_line_of_event; [rewrite Hs; discriminate|].
    apply (ParserProps.privmsg_event _ _
             (HASH :: swarm_channel ++ s " :[Discord/" ++ r)).
    + rewrite Hs. exists [SP], [SP].
      repeat split; try discriminate; try apply Hn;
        try (repeat constructor).
      unfold head. repeat (cbn [app]; rewrite <- !app_assoc). reflexivity.
    + change (HASH :: swarm_channel ++ s " :[Discord/" ++ r)
        with ((HASH :: swarm_channel) ++ s " :[Discord/" ++ r).
      rewrite first_line_app by now apply token_one_line.
      rewrite (first_line_app (s " :[Discord/")) by (repeat constructor).
      exists [SP]. repeat split; try apply Htok; try discriminate.
      repeat constructor.
  - unfold on_swarm_message, bind, get.
    cbn [startswith N.eqb HASH Pos.eqb andb negb].
    case_bool_decide; reflexivity.
Qed.

Lemma discord_echo_dropped_witness :
  Client._parse_line listener
    (s ":bridge PRIVMSG #general :[Discord/bob] **[SwarmIRC/alice]** hi ")
    quiet =
  (Ok tt,
   {| Client.world := [s "raw"; s "first"; s "second"; s "third"];
      Client.calls :=
        [(Client.raw, 0,
          [s ":bridge PRIVMSG #general :[Discord/bob] **[SwarmIRC/alice]** hi"]);
         (Client.message, 0,
          [s "bridge"; s "#general";
           s "[Discord/bob] **[SwarmIRC/alice]** hi"]);
         (Client.message, 1,
          [s "bridge"; s "#general";
           s "[Discord/bob] **[SwarmIRC/alice]** hi"]);
         (Client.message, 2,
          [s "bridge"; s "#general";
           s "[Discord/bob] **[SwarmIRC/alice]** hi"])] |})
  /\ on_swarm_message (s "bridge") (s "#general")
       (s "[Discord/bob] **[SwarmIRC/alice]** hi") new_bridge
     = (Ok tt, new_bridge).
Proof.
  apply (discord_echo_dropped listener quiet (s "bridge") (s "general")
           (s "bob") (s "**[SwarmIRC/alice]** hi ") new_bridge).
  - apply token_lit; [discriminate | reflexivity].
  - apply token_lit; [discriminate | reflexivity].
Defined.





End BridgeProps.

(** ** Registration *)

Module RegistryProps.
Import Py Re Eff Transport Client Grammar ReFacts DispatchFacts Examples
  Lifecycle FramingProps WireProps.

Lemma run_all_snoc {W} (hs : list (handler W)) h args w :
  run_all (hs ++ [h]) args w = fst (h args (run_all hs args w)).
Proof. unfold run_all. now rewrite fold_left_app. Qed.

Lemma invocations_register {W} (c : SwarmIRC W) k f args :
  invocations (register k f c) k args
  = invocations c k args ++ [(k, length (_handlers c k), args)].
Proof.
  unfold invocations. cbn [_handlers register].
  rewrite decide_True by reflexivity.
  rewrite length_app. cbn [length]. rewrite seq_app, map_app. reflexivity.
Qed.

(** X29. Registration order is calling order. After [on_message f], a
    PRIVMSG line is dispatched exactly as before and then [f] is called,
    last, on the same sender, target and body and on the world the
    earlier handlers left; its position in the registry is the number of
    message handlers there were. *)
Theorem registered_handler_runs_last {W} (c : SwarmIRC W) (f : handler W)
    (line prefix params target body : str) (e : @Env W) :
  framed (strip line) prefix (s "PRIVMSG") params ->
  trailing (first_line params) target body ->
  let before := snd (_parse_line c line e) in
  let args := [split_first BANG prefix; target; body] in
  _parse_line (on_message f c) line e =
  (Ok tt,
   {| world := fst (f args (world before));
      calls := calls before
               ++ [(message, length (_handlers c message), args)] |}).
Proof.
  intros Hf Ht before args. subst before.
  pose proof (ParserProps.privmsg_event _ _ _ _ _ Hf Ht) as Ev.
  pose proof (framed_nonblank _ _ _ _ Hf) as Hne.
  rewrite (parse_line_of_event c line message args e Hne Ev).
  rewrite (parse_line_of_event (on_message f c) line message args e Hne Ev).
  cbn [snd world calls]. unfold on_message.
  rewrite invocations_register.
  cbn [_handlers register]. rewrite decide_True by reflexivity.
  rewrite decide_False by discriminate.
  rewrite run_all_snoc. unfold invocations at 1. cbn [_handlers register].
  rewrite decide_False by discriminate.
  now rewrite !app_assoc.
Qed.

Lemma registered_handler_runs_last_witness :
  _parse_line (on_message (noting (s "fourth")) listener) privmsg_line quiet =
  (Ok tt,
   {| world := [s "raw"; s "first"; s "second"; s "third"; s "fourth"];
      calls := calls (snd (_parse_line listener privmsg_line quiet))
               ++ [(message, 3,
                    [s "alice"; s "#general"; s "hello world"])] |}).
Proof.
  exact (registered_handler_runs_last listener (noting (s "fourth"))
           privmsg_line (s "alice!u@h") (s "#general :hello world")
           (s "#general") (s "hello world") quiet
           ParserProps.privmsg_line_framed ParserProps.privmsg_line_trailing).
Defined.

(** X30. The quit and topic registries are never fired: no line makes
    [_parse_line] call a handler of either. *)
Theorem quit_topic_never_fired {W} (c : SwarmIRC W) (line : str)
    (e : @Env W) (k : kind) (i : nat) (args : list str) :
  In (k, i, args)
    (drop (length (calls e)) (calls (snd (_parse_line c line e)))) ->
  k <> quit /\ k <> topic.
Proof.
  destruct (decide (strip line = [])) as [Hb|Hb].
  - rewrite parse_line_blank by assumption. cbn [snd].
    rewrite drop_all. intros [].
  - rewrite parse_line_spec by assumption. cbn zeta. cbn [snd].
    intros Hin.
    assert (Hk : k = raw \/ In k [message; join_; part_; query_; cmd]).
    { destruct (event_of (strip line)) as [[k' a]|] eqn:Ev;
        cbn [calls] in Hin; rewrite drop_app_length in Hin.
      - apply in_app_or in Hin as [Hin|Hin];
          unfold invocations in Hin;
          apply in_map_iff in Hin as (j & [= <- _ _] & _); [now left|].
        right. eapply event_of_kind, Ev.
      - unfold invocations in Hin.
        apply in_map_iff in Hin as (j & [= <- _ _] & _). now left. }
    cbn in Hk. split; intros ->; intuition discriminate.
Qed.

Lemma quit_topic_never_fired_witness : message <> quit /\ message <> topic.
Proof.
  apply (quit_topic_never_fired listener privmsg_line quiet message 1
           [s "alice"; s "#general"; s "hello world"]).
  right. right. left. reflexivity.
Defined.

End RegistryProps.
